(** * FEM analysis of a tapered rod (src/folder/weird.py)

    A shallow embedding of the numerical core of [weird.py]: the analytical
    displacement, the area law, the two-node bar element, the assembly loop,
    the penalty boundary condition, the linear solve and the stress
    post-processor, with the properties the specification states about them.

    Conventions of the embedding.
    - A Python/NumPy [float64] is a real number ([R]): arithmetic is exact,
      rounding, infinities and NaN are not represented.  NumPy's array
      division by a zero scalar (which yields inf/nan and a warning, not an
      exception) therefore has no counterpart here; statements about
      quotients by [dx] are to be read for [dx <> 0].
    - Division of two Python scalars raises [ZeroDivisionError] on a zero
      divisor; it is the fallible [py_div].
    - A one-dimensional array is a [list R], a two-dimensional array a list
      of rows.  In-place updates ([K[...] += ...], [f[-1] = F]) are explicit
      state passing on the array value.
    - The module-level constants [L], [E], [F], [A0], [alpha_modified] are
      the fields of the record [globals]; [weird_py] holds the values the
      file assigns.
    - [np.linalg.solve] is NumPy/LAPACK code outside the repository; it is
      the relation [np_linalg_solve], its documented contract. *)

From Stdlib Require Import Reals Lra Lia.
From stdpp Require Import base option list.

Open Scope R_scope.

(** ** Python results *)

Inductive exn : Type :=
  | ZeroDivisionError
  | IndexError
  | ValueError
  | LinAlgError.

Inductive result (A : Type) : Type :=
  | Ok (a : A)
  | Raise (e : exn).

Arguments Ok {A} a.
Arguments Raise {A} e.

Definition bind {A B : Type} (m : result A) (k : A -> result B) : result B :=
  match m with
  | Ok a => k a
  | Raise e => Raise e
  end.

Notation "'let*' x := m 'in' k" := (bind m (fun x => k))
  (at level 10, x name, m at level 100, k at level 200).

(** [a / b] on two Python scalars. *)
Definition py_div (a b : R) : result R :=
  if Req_dec_T b 0 then Raise ZeroDivisionError else Ok (a / b).

(** ** Arrays *)

Abbreviation vector := (list R).
Abbreviation matrix := (list (list R)).

(** [np.zeros(n)] and [np.zeros((n, m))]. *)
Definition np_zeros (n : nat) : vector := replicate n 0.
Definition np_zeros2 (n m : nat) : matrix := replicate n (np_zeros m).

(** [K[r, c]], when the indices are in range. *)
Definition mat_lookup (K : matrix) (r c : nat) : option R :=
  row ← K !! r; row !! c.

(** [K[r, c] += v]. *)
Definition iadd_at (r c : nat) (v : R) (K : matrix) : matrix :=
  alter (alter (fun x => x + v) c) r K.

(** [K[i:i+2, i:i+2] += B] for a 2x2 array [B]: the four entries of the
    diagonal block at [i] each receive the matching entry of [B].  A slice
    that runs past the last row or column is shorter than [B] and the
    update raises [ValueError] (the shapes do not broadcast).  The loop
    passes no [B] of another shape; the model rejects one. *)
Definition iadd_block2 (i : nat) (B : matrix) (K : matrix) : result matrix :=
  match B, mat_lookup K (i + 1) (i + 1) with
  | [[b00; b01]; [b10; b11]], Some _ =>
      Ok (iadd_at (i + 1) (i + 1) b11
            (iadd_at (i + 1) i b10
               (iadd_at i (i + 1) b01
                  (iadd_at i i b00 K))))
  | _, _ => Raise ValueError
  end.

(** [for i in l: s = body(s, i)], stopping at the first exception. *)
Fixpoint for_each {S : Type} (body : S -> nat -> result S) (l : list nat)
    (s : S) : result S :=
  match l with
  | [] => Ok s
  | i :: l' => let* s' := body s i in for_each body l' s'
  end.

(** [c * B] for a scalar [c] and a 2-D array [B]. *)
Definition mat_scale (c : R) (B : matrix) : matrix :=
  (fun row : vector => Rmult c <$> row) <$> B.

(** [f[-1] = x]; [IndexError] on an empty array. *)
Definition set_last (x : R) (f : vector) : result vector :=
  match f with
  | [] => Raise IndexError
  | _ :: _ => Ok (<[pred (length f) := x]> f)
  end.

(** [np.diff(u)]: consecutive differences [u[i+1] - u[i]]. *)
Definition np_diff (u : vector) : vector :=
  zip_with (fun a b => b - a) u (tail u).

(** The inner product of a row with [u], and [K @ u]. *)
Definition dot (a b : vector) : R :=
  foldr Rplus 0 (zip_with Rmult a b).

Definition mat_vec (K : matrix) (u : vector) : vector :=
  (fun row : vector => dot row u) <$> K.

(** ** The linear solver

    [np.linalg.solve(K, f)] for a square [K] and an [f] of matching length:
    the solution of [K @ u = f] when [K] is nonsingular, the exception
    [LinAlgError] (Singular matrix) when it is singular.  No estimate of
    the conditioning is made.  Arguments of other shapes are outside the
    contract (the program never passes them). *)

Definition square (K : matrix) : Prop :=
  Forall (fun row : vector => length row = length K) K.

Definition nonsingular (K : matrix) : Prop :=
  forall v : vector,
    length v = length K ->
    mat_vec K v = np_zeros (length K) ->
    v = np_zeros (length K).

Inductive np_linalg_solve (K : matrix) (f : vector) : result vector -> Prop :=
  | solve_ok (u : vector) :
      square K -> length f = length K ->
      length u = length K ->
      nonsingular K ->
      mat_vec K u = f ->
      np_linalg_solve K f (Ok u)
  | solve_singular :
      square K -> length f = length K ->
      ~ nonsingular K ->
      np_linalg_solve K f (Raise LinAlgError).

(** Sequencing of a computation given by its possible results with a
    continuation of the same kind. *)
Definition rbind {A B : Type} (m : result A -> Prop)
    (k : A -> result B -> Prop) (r : result B) : Prop :=
  (exists a, m (Ok a) /\ k a r) \/ (exists e, m (Raise e) /\ r = Raise e).

(** A computation with the single result [m]. *)
Definition rlift {A : Type} (m : result A) (r : result A) : Prop := r = m.

(** ** Module constants *)

Record globals : Type := Globals {
  L : R;
  E : R;
  F : R;
  A0 : R;
  alpha_modified : R
}.

(** Lines 5-9 of the source. *)
Definition weird_py : globals :=
  {| L := 1.0; E := 200e9; F := 1000; A0 := 0.01; alpha_modified := 1 |}.

(** The source constants with the taper switched off. *)
Definition untapered : globals :=
  {| L := 1.0; E := 200e9; F := 1000; A0 := 0.01; alpha_modified := 0 |}.

(** The invariants of the rod model: positive length, modulus and area. *)
Definition valid_model (g : globals) : Prop :=
  0 < L g /\ 0 < E g /\ 0 < A0 g.

Section Engine.

Variable g : globals.

(** ** Scalar laws *)

Definition analytical_displacement_modified (x : R) : result R :=
  let* c := py_div (F g) (E g * A0 g * alpha_modified g) in
  Ok (c * (1 - exp (- alpha_modified g * x))).

Definition area_modified (x : R) : R :=
  A0 g * exp (alpha_modified g * x).

Definition local_stiffness_matrix (A_mid dx : R) : matrix :=
  mat_scale (E g * A_mid / dx) [[1; -1]; [-1; 1]].

(** ** Assembly *)

(** One iteration of the loop of [assemble_global_stiffness_matrix]. *)
Definition assemble_step (dx : R) (K : matrix) (i : nat) : result matrix :=
  let x_i := INR i * dx in
  let x_ip1 := INR (i + 1) * dx in
  let x_mid := 0.5 * (x_i + x_ip1) in
  let A_mid := area_modified x_mid in
  let k_local := local_stiffness_matrix A_mid dx in
  iadd_block2 i k_local K.

Definition assemble_global_stiffness_matrix (N : nat) : result matrix :=
  let* dx := py_div (L g) (INR N) in
  for_each (assemble_step dx) (seq 0 N) (np_zeros2 (N + 1) (N + 1)).

(** ** Boundary condition *)

(** The function updates [K] in place and returns the two arrays it was
    given; the pair is the state of both after the call.  [K[0, 0]] on an
    array without that entry raises [IndexError]. *)
Definition apply_boundary_conditions (K : matrix) (f : vector)
  : result (matrix * vector) :=
  match mat_lookup K 0 0 with
  | Some _ => Ok (iadd_at 0 0 1e20 K, f)
  | None => Raise IndexError
  end.

(** ** Displacement *)

(** Lines 51-52: [f = np.zeros(N+1); f[-1] = F]. *)
Definition force_vector (N : nat) : result vector :=
  set_last (F g) (np_zeros (N + 1)).

(** The boundary-conditioned system handed to the solver (lines 49-55). *)
Definition fem_system (N : nat) : result (matrix * vector) :=
  let* dx := py_div (L g) (INR N) in
  let* K := assemble_global_stiffness_matrix N in
  let* f := force_vector N in
  apply_boundary_conditions K f.

Definition fem_displacement_modified (N : nat) : result vector -> Prop :=
  rbind (rlift (fem_system N)) (fun '(K, f) => np_linalg_solve K f).

(** ** Post-processing *)

Definition stress (u : vector) (N : nat) (dx : R) : result vector :=
  let du_dx := (fun d => d / dx) <$> np_diff u in
  let* c := py_div (E g) dx in
  Ok (Rmult c <$> du_dx).

(** The stress pass of the main program (lines 92, 95, 96):
    [u = fem_displacement_modified(N); dx = L / N; stress(u, N, dx)]. *)
Definition sigma_fem_modified (N : nat) : result vector -> Prop :=
  rbind (fem_displacement_modified N) (fun u =>
    rlift (let* dx := py_div (L g) (INR N) in stress u N dx)).

End Engine.


(** ** Reference quantities of the statements *)

#[global] Instance R_inhabited : Inhabited R := populate 0.

(** [sum_f f n = f 0 + ... + f (n - 1)]. *)
Fixpoint sum_f (f : nat -> R) (n : nat) : R :=
  match n with
  | O => 0
  | S n' => sum_f f n' + f n'
  end.

(** Axial stiffness [E * area(x_mid) / dx] of element [i], taken at the
    midpoint [x_mid = (i + 1/2) * dx]. *)
Definition element_stiffness (g : globals) (dx : R) (i : nat) : R :=
  E g * area_modified g ((INR i + 1 / 2) * dx) / dx.

(** What element [i] adds to entry [(r, c)] of the global matrix: its local
    stiffness [k * [[1, -1], [-1, 1]]] sits on rows and columns [i], [i+1]
    and nothing is added elsewhere. *)
Definition element_contribution (g : globals) (dx : R) (i r c : nat) : R :=
  if decide ((r = i \/ r = S i) /\ (c = i \/ c = S i))
  then element_stiffness g dx i * (if decide (r = c) then 1 else -1)
  else 0.

(** Entry [(r, c)] of the accumulated matrix of an [N]-element mesh. *)
Definition accumulated_entry (g : globals) (N : nat) (r c : nat) : R :=
  sum_f (fun i => element_contribution g (L g / INR N) i r c) N.

(** Nodal displacement in closed form: the fixed node moves by
    [Fv / penalty], every element [j] stretches by [Fv / k_j]. *)
Definition nodal_displacement (g : globals) (dx Fv : R) (i : nat) : R :=
  Fv / 1e20 + sum_f (fun j => Fv / element_stiffness g dx j) i.

(** The closed-form displacement field of an [N]-element mesh under the
    end load [Fv]. *)
Definition displacement_field (g : globals) (N : nat) (Fv : R) : vector :=
  (fun i => nodal_displacement g (L g / INR N) Fv i) <$> seq 0 (S N).

(** Entry [(r, c)] of the boundary-conditioned matrix. *)
Definition constrained_entry (g : globals) (N : nat) (r c : nat) : R :=
  accumulated_entry g N r c
  + (if decide (r = 0%nat /\ c = 0%nat) then 1e20 else 0).

(** Shape and entries of the system [fem_displacement_modified] passes to
    the solver. *)
Definition is_fem_system (g : globals) (N : nat) (K : matrix) (f : vector)
  : Prop :=
  length K = S N /\
  Forall (fun row : vector => length row = S N) K /\
  length f = S N /\
  (forall r c, (r <= N)%nat -> (c <= N)%nat ->
     mat_lookup K r c = Some (constrained_entry g N r c)) /\
  (forall j, (j <= N)%nat ->
     f !! j = Some (if decide (j = N) then F g else 0)).

(** Row [r] of [K @ u] for the boundary-conditioned matrix: the penalty
    spring at node 0 and the pull of the elements on either side. *)
Definition constrained_row (g : globals) (N : nat) (u : vector) (r : nat) : R :=
  (if decide (r = 0%nat) then 1e20 * u !!! 0%nat else 0)
  + ((if decide (r < N)%nat
      then element_stiffness g (L g / INR N) r * (u !!! r - u !!! S r) else 0)
     + (if decide (1 <= r)%nat
        then element_stiffness g (L g / INR N) (pred r)
             * (u !!! r - u !!! pred r)
        else 0)).

(** *** Test inputs *)

(** A rod without stiffness ([E = 0], outside the model invariants): its
    one-element system is singular. *)
Definition limp_rod : globals :=
  {| L := 1; E := 0; F := 1000; A0 := 1; alpha_modified := 0 |}.

(** *** Further parts of the program *)

(** [np.linspace(start, stop, num)]: [num] evenly spaced samples, both end
    points included, sample [i] being [start + i * step] with
    [step = (stop - start) / (num - 1)]; a single sample is [start]. *)
Definition np_linspace (start stop : R) (num : nat) : vector :=
  (fun i => start + INR i * ((stop - start) / INR (num - 1))) <$> seq 0 num.

(** [[f(x) for x in l]], stopping at the first exception. *)
Fixpoint list_comprehension {A B : Type} (f : A -> result B) (l : list A)
    : result (list B) :=
  match l with
  | [] => Ok []
  | x :: l' =>
      let* y := f x in
      let* ys := list_comprehension f l' in
      Ok (y :: ys)
  end.

(** [np.abs(u - v)] for an array [u] and a list [v] of the same length
    (the error pass passes two of length [N + 1]). *)
Definition np_abs_diff (u v : vector) : vector :=
  zip_with (fun a b => Rabs (a - b)) u v.

(** The error pass of the main program (lines 110-114). *)
Definition error_pass (g : globals) (N : nat) : result vector -> Prop :=
  rbind (fem_displacement_modified g N) (fun u_fem_modified =>
    rlift (let x_fem := np_linspace 0 (L g) (N + 1) in
           let* u_analytical_at_nodes :=
             list_comprehension (analytical_displacement_modified g) x_fem in
           Ok (np_abs_diff u_fem_modified u_analytical_at_nodes))).

(** [u @ K @ u], twice the strain energy of the field [u]. *)
Definition quad_form (K : matrix) (u : vector) : R := dot u (mat_vec K u).

(** Ratio of the midpoint-rule compliance of an element of length [dx] to
    its exact compliance: [h / sinh h] for [h = alpha * dx / 2]. *)
Definition midpoint_factor (g : globals) (dx : R) : R :=
  alpha_modified g * dx
  / (exp (alpha_modified g * dx / 2) - exp (- (alpha_modified g * dx / 2))).

(** * Properties *)

(** ** Real-number and list helpers *)

Lemma py_div_ok (a b : R) : b <> 0 -> py_div a b = Ok (a / b).
Proof. intros Hb. unfold py_div. destruct (Req_dec_T b 0); [contradiction|reflexivity]. Qed.

Lemma py_div_zero (a : R) : py_div a 0 = Raise ZeroDivisionError.
Proof. unfold py_div. destruct (Req_dec_T 0 0); [reflexivity|contradiction]. Qed.

Lemma np_diff_length (u : vector) : length (np_diff u) = pred (length u).
Proof.
  unfold np_diff. rewrite length_zip_with, length_tl. lia.
Qed.

Lemma np_diff_lookup (u : vector) (i : nat) (a b : R) :
  u !! i = Some a -> u !! S i = Some b -> np_diff u !! i = Some (b - a).
Proof.
  intros Ha Hb. unfold np_diff.
  rewrite lookup_zip_with, Ha. simpl.
  rewrite lookup_tail, Hb. reflexivity.
Qed.

(** Equality of two explicit lists of reals, entry by entry. *)
Ltac list_R_eq :=
  repeat first [reflexivity | apply (f_equal2 (@cons R)); [lra|]].

(** ** Stress post-processor *)

(** What [stress] computes: one value per element, the difference quotient
    divided by [dx] once more and scaled by [E]. *)
Lemma stress_spec (g : globals) (u : vector) (N : nat) (dx : R) :
  dx <> 0 ->
  length u = S N ->
  exists s, stress g u N dx = Ok s /\ length s = N /\
    forall i a b, u !! i = Some a -> u !! S i = Some b ->
      s !! i = Some (E g / dx * ((b - a) / dx)).
Proof.
  intros Hdx Hlen. unfold stress. rewrite py_div_ok by assumption. simpl.
  eexists; split; [reflexivity|]. split.
  - rewrite !length_fmap, np_diff_length, Hlen. reflexivity.
  - intros i a b Ha Hb.
    rewrite !list_lookup_fmap, (np_diff_lookup u i a b Ha Hb). reflexivity.
Qed.

(** C1: at the displacement field [0, 1, 3] of a two-element mesh with
    [dx = 1/2] the post-processor returns [8e11, 16e11]: the difference
    quotient is divided by [dx] a second time, so the first entry is not
    [E * (u[1] - u[0]) / dx = 4e11]. *)
Theorem stress_divides_by_dx_twice :
  stress weird_py [0; 1; 3] 2 (1 / 2) = Ok [8e11; 16e11] /\
  E weird_py * (1 - 0) / (1 / 2) = 4e11 /\
  8e11 <> 4e11.
Proof.
  split; [|split].
  - unfold stress. rewrite py_div_ok by lra. simpl.
    apply f_equal. list_R_eq.
  - simpl. lra.
  - lra.
Qed.

(** ** Analytical solution *)

(** C2, as stated, fails: with [alpha_modified = 0] the call at [x = 1/2]
    raises [ZeroDivisionError]; it returns no value, so not
    [F * x / (E * A0)] either. *)
Lemma analytical_alpha0_raises :
  alpha_modified untapered = 0 /\
  0 <= 1 / 2 <= L untapered /\
  analytical_displacement_modified untapered (1 / 2) = Raise ZeroDivisionError /\
  ~ (exists v, analytical_displacement_modified untapered (1 / 2) = Ok v).
Proof.
  assert (H : analytical_displacement_modified untapered (1 / 2)
              = Raise ZeroDivisionError).
  { unfold analytical_displacement_modified. simpl.
    replace (200e9 * 0.01 * 0) with 0 by lra.
    rewrite py_div_zero. reflexivity. }
  repeat split; simpl; try lra; try assumption.
  intros [v Hv]. rewrite H in Hv. discriminate.
Qed.

(** C2 (amended): when the divisor [E * A0 * alpha] is not zero the function
    returns the exponential formula; at [alpha = 0] there is no separate
    branch and the division raises [ZeroDivisionError]. *)
Theorem analytical_displacement_modified_spec (g : globals) (x : R) :
  (E g * A0 g * alpha_modified g <> 0 ->
   analytical_displacement_modified g x =
     Ok (F g / (E g * A0 g * alpha_modified g)
         * (1 - exp (- alpha_modified g * x)))) /\
  (alpha_modified g = 0 ->
   analytical_displacement_modified g x = Raise ZeroDivisionError).
Proof.
  unfold analytical_displacement_modified. split.
  - intros Hne. rewrite py_div_ok by assumption. reflexivity.
  - intros Ha. rewrite Ha, Rmult_0_r, py_div_zero. reflexivity.
Qed.

Lemma analytical_displacement_modified_spec_witness :
  analytical_displacement_modified weird_py (1 / 2) =
    Ok (F weird_py / (E weird_py * A0 weird_py * alpha_modified weird_py)
        * (1 - exp (- alpha_modified weird_py * (1 / 2)))) /\
  analytical_displacement_modified untapered (1 / 2) = Raise ZeroDivisionError.
Proof.
  split.
  - apply (proj1 (analytical_displacement_modified_spec weird_py (1 / 2))).
    simpl. lra.
  - apply (proj2 (analytical_displacement_modified_spec untapered (1 / 2))).
    reflexivity.
Defined.

(** ** Entry-wise view of the in-place updates *)

Lemma mat_lookup_iadd_at (K : matrix) (r c r' c' : nat) (v : R) :
  mat_lookup (iadd_at r c v K) r' c' =
    if decide (r = r' /\ c = c')
    then (fun x => x + v) <$> mat_lookup K r' c'
    else mat_lookup K r' c'.
Proof.
  unfold mat_lookup, iadd_at. rewrite list_lookup_alter.
  destruct (decide (r = r')) as [->|Hr].
  - destruct (K !! r') as [row|]; simpl.
    + rewrite list_lookup_alter.
      destruct (decide (c = c')) as [->|Hc].
      * rewrite decide_True by done. reflexivity.
      * rewrite decide_False by tauto. reflexivity.
    + destruct (decide _); reflexivity.
  - rewrite decide_False by tauto. reflexivity.
Qed.

Lemma iadd_at_length (K : matrix) (r c : nat) (v : R) :
  length (iadd_at r c v K) = length K.
Proof. unfold iadd_at. apply length_alter. Qed.

Lemma iadd_at_rows (K : matrix) (r c : nat) (v : R) (m : nat) :
  Forall (fun row : vector => length row = m) K ->
  Forall (fun row : vector => length row = m) (iadd_at r c v K).
Proof.
  intros H. unfold iadd_at. apply Forall_alter; [assumption|].
  intros row _ Hrow. rewrite length_alter. assumption.
Qed.

(** ** Boundary condition *)

Lemma apply_boundary_conditions_ok (K : matrix) (f : vector) :
  is_Some (mat_lookup K 0 0) ->
  apply_boundary_conditions K f = Ok (iadd_at 0 0 1e20 K, f).
Proof.
  intros [x Hx]. unfold apply_boundary_conditions. rewrite Hx. reflexivity.
Qed.

(** C5: on a matrix that has an entry [K[0, 0]] the applicator returns the
    matrix with [1e20] added to that entry, every other entry and the shape
    as they were, and the force vector as it was. *)
Theorem apply_boundary_conditions_frame (K : matrix) (f : vector) (x : R) :
  mat_lookup K 0 0 = Some x ->
  exists K',
    apply_boundary_conditions K f = Ok (K', f) /\
    mat_lookup K' 0 0 = Some (x + 1e20) /\
    1e20 >= 1e20 /\
    (forall r c, (r, c) <> (0, 0)%nat -> mat_lookup K' r c = mat_lookup K r c) /\
    length K' = length K /\
    (forall r, length <$> K' !! r = length <$> K !! r).
Proof.
  intros H00. exists (iadd_at 0 0 1e20 K).
  unfold apply_boundary_conditions. rewrite H00.
  split; [reflexivity|]. split; [|split; [lra|split; [|split]]].
  - rewrite mat_lookup_iadd_at, decide_True by done. rewrite H00. reflexivity.
  - intros r c Hrc. rewrite mat_lookup_iadd_at.
    rewrite decide_False; [reflexivity|].
    intros [<- <-]. apply Hrc. reflexivity.
  - apply iadd_at_length.
  - intros r. unfold iadd_at. rewrite list_lookup_alter.
    destruct (decide (0%nat = r)) as [<-|]; [|reflexivity].
    destruct (K !! 0%nat); simpl; [|reflexivity].
    rewrite length_alter. reflexivity.
Qed.

Lemma apply_boundary_conditions_frame_witness :
  exists K',
    apply_boundary_conditions [[2; -2]; [-2; 2]] [0; 1000] = Ok (K', [0; 1000]) /\
    mat_lookup K' 0 0 = Some (2 + 1e20) /\
    1e20 >= 1e20 /\
    (forall r c, (r, c) <> (0, 0)%nat ->
       mat_lookup K' r c = mat_lookup [[2; -2]; [-2; 2]] r c) /\
    length K' = length [[2; -2]; [-2; 2]] /\
    (forall r, length <$> K' !! r = length <$> [[2; -2]; [-2; 2]] !! r).
Proof.
  apply (apply_boundary_conditions_frame [[2; -2]; [-2; 2]] [0; 1000] 2).
  reflexivity.
Defined.

(** ** Finite sums *)

Lemma sum_f_ext (f h : nat -> R) (n : nat) :
  (forall i, (i < n)%nat -> f i = h i) -> sum_f f n = sum_f h n.
Proof.
  induction n as [|n IH]; intros Hfh; simpl; [reflexivity|].
  rewrite IH by (intros i Hi; apply Hfh; lia).
  rewrite Hfh by lia. reflexivity.
Qed.

Lemma sum_f_shift (f : nat -> R) (n : nat) :
  sum_f f (S n) = f O + sum_f (fun i => f (S i)) n.
Proof.
  induction n as [|n IH]; simpl in *; [lra|].
  rewrite IH. lra.
Qed.

Lemma sum_f_plus (f h : nat -> R) (n : nat) :
  sum_f (fun i => f i + h i) n = sum_f f n + sum_f h n.
Proof. induction n as [|n IH]; simpl; [lra|]. rewrite IH. lra. Qed.

Lemma sum_f_scale (f : nat -> R) (a : R) (n : nat) :
  sum_f (fun i => f i * a) n = sum_f f n * a.
Proof. induction n as [|n IH]; simpl; [lra|]. rewrite IH. lra. Qed.

Lemma sum_f_zero (n : nat) : sum_f (fun _ => 0) n = 0.
Proof. induction n as [|n IH]; simpl; [reflexivity|]. rewrite IH. lra. Qed.

Lemma sum_f_swap (f : nat -> nat -> R) (n m : nat) :
  sum_f (fun c => sum_f (fun i => f i c) m) n =
  sum_f (fun i => sum_f (fun c => f i c) n) m.
Proof.
  induction n as [|n IH]; simpl.
  - symmetry. apply sum_f_zero.
  - rewrite IH, sum_f_plus. reflexivity.
Qed.

(** A sum whose only possibly non-zero term is the one at [a]. *)
Lemma sum_f_at (h : nat -> R) (a n : nat) :
  sum_f (fun i => if decide (i = a) then h i else 0) n =
  if decide (a < n)%nat then h a else 0.
Proof.
  induction n as [|n IH]; cbn [sum_f].
  - case_decide; [lia|reflexivity].
  - rewrite IH. repeat case_decide; subst; try lia; lra.
Qed.

Lemma sum_f_ge (f : nat -> R) (b : R) (n : nat) :
  (forall i, (i < n)%nat -> b <= f i) -> INR n * b <= sum_f f n.
Proof.
  induction n as [|n IH]; intros Hb.
  - simpl. lra.
  - rewrite S_INR. simpl.
    specialize (IH (fun i Hi => Hb i ltac:(lia))).
    specialize (Hb n ltac:(lia)). lra.
Qed.

(** The dot product as a sum over the indices. *)
Lemma dot_as_sum (a b : vector) :
  length a = length b ->
  dot a b = sum_f (fun c => a !!! c * b !!! c) (length a).
Proof.
  revert b. induction a as [|x a IH]; intros [|y b] Hlen; simpl in *;
    try discriminate; [reflexivity|].
  unfold dot in *. simpl.
  rewrite (IH b) by lia.
  change (sum_f (λ c : nat, (x :: a) !!! c * (y :: b) !!! c) (length a)
          + (x :: a) !!! length a * (y :: b) !!! length a)
    with (sum_f (λ c : nat, (x :: a) !!! c * (y :: b) !!! c) (S (length a))).
  rewrite sum_f_shift. reflexivity.
Qed.

(** ** Assembly loop *)

Lemma midpoint_eq (i : nat) (dx : R) :
  0.5 * (INR i * dx + INR (i + 1) * dx) = (INR i + 1 / 2) * dx.
Proof. rewrite plus_INR. simpl. lra. Qed.

Lemma option_fmap_add_0 (o : option R) : (fun x => x + 0) <$> o = o.
Proof. destruct o; simpl; [f_equal; lra|reflexivity]. Qed.

Lemma assemble_step_spec (g : globals) (dx : R) (K : matrix) (i : nat) :
  is_Some (mat_lookup K (i + 1) (i + 1)) ->
  exists K',
    assemble_step g dx K i = Ok K' /\
    length K' = length K /\
    (forall m, Forall (fun row : vector => length row = m) K ->
               Forall (fun row : vector => length row = m) K') /\
    forall r c,
      mat_lookup K' r c =
        (fun x => x + element_contribution g dx i r c) <$> mat_lookup K r c.
Proof.
  intros [y Hy]. unfold assemble_step, local_stiffness_matrix, iadd_block2.
  simpl mat_scale. cbv beta iota. rewrite Hy.
  eexists. split; [reflexivity|]. split; [|split].
  - rewrite !iadd_at_length. reflexivity.
  - intros m Hm. repeat apply iadd_at_rows. assumption.
  - intros r c. rewrite !mat_lookup_iadd_at.
    unfold element_contribution, element_stiffness.
    rewrite midpoint_eq.
    replace (i + 1)%nat with (S i) by lia.
    destruct (mat_lookup K r c) as [x|]; simpl;
      repeat case_decide; simpl; try lia; try reflexivity;
      try (f_equal; lra).
Qed.

Lemma for_each_snoc {S : Type} (body : S -> nat -> result S) (l : list nat)
    (x : nat) (s : S) :
  for_each body (l ++ [x]) s =
  let* s' := for_each body l s in body s' x.
Proof.
  revert s. induction l as [|i l IH]; intros s; simpl.
  - destruct (body s x); reflexivity.
  - destruct (body s i) as [s'|e]; simpl; [apply IH|reflexivity].
Qed.

Lemma option_fmap_add_add (o : option R) (a b : R) :
  (fun x => x + b) <$> ((fun x => x + a) <$> o) = (fun x => x + (a + b)) <$> o.
Proof. destruct o; simpl; [f_equal; lra|reflexivity]. Qed.

Lemma assemble_loop (g : globals) (dx : R) (N : nat) (K0 : matrix) (m : nat) :
  (forall r c, (r <= N)%nat -> (c <= N)%nat -> is_Some (mat_lookup K0 r c)) ->
  (m <= N)%nat ->
  exists K,
    for_each (assemble_step g dx) (seq 0 m) K0 = Ok K /\
    length K = length K0 /\
    (forall n, Forall (fun row : vector => length row = n) K0 ->
               Forall (fun row : vector => length row = n) K) /\
    forall r c,
      mat_lookup K r c =
        (fun x => x + sum_f (fun i => element_contribution g dx i r c) m)
          <$> mat_lookup K0 r c.
Proof.
  intros Hshape. induction m as [|m IH]; intros Hm.
  - exists K0. simpl. repeat split; try done.
    intros r c. symmetry. apply option_fmap_add_0.
  - destruct IH as (K & Hrun & Hlen & Hrows & Hent); [lia|].
    destruct (assemble_step_spec g dx K m) as (K' & Hstep & Hlen' & Hrows' & Hent').
    { rewrite Hent. apply fmap_is_Some, Hshape; lia. }
    exists K'. split; [|split; [|split]].
    + rewrite seq_S, for_each_snoc, Hrun. simpl. exact Hstep.
    + congruence.
    + intros n Hn. apply Hrows', Hrows, Hn.
    + intros r c. rewrite Hent', Hent, option_fmap_add_add. reflexivity.
Qed.

Lemma mat_lookup_zeros (n m r c : nat) :
  (r < n)%nat -> (c < m)%nat -> mat_lookup (np_zeros2 n m) r c = Some 0.
Proof.
  intros Hr Hc. unfold mat_lookup, np_zeros2, np_zeros.
  rewrite lookup_replicate_2 by assumption. simpl.
  apply lookup_replicate_2. assumption.
Qed.

Lemma INR_pos_ne0 (N : nat) : (1 <= N)%nat -> INR N <> 0.
Proof. intros H. apply not_0_INR. lia. Qed.

Lemma assemble_spec (g : globals) (N : nat) :
  (1 <= N)%nat ->
  exists K,
    assemble_global_stiffness_matrix g N = Ok K /\
    length K = S N /\
    Forall (fun row : vector => length row = S N) K /\
    forall r c, (r <= N)%nat -> (c <= N)%nat ->
      mat_lookup K r c = Some (accumulated_entry g N r c).
Proof.
  intros HN. unfold assemble_global_stiffness_matrix.
  rewrite py_div_ok by (apply INR_pos_ne0; assumption). simpl.
  destruct (assemble_loop g (L g / INR N) N (np_zeros2 (N + 1) (N + 1)) N)
    as (K & Hrun & Hlen & Hrows & Hent); [|lia|].
  { intros r c Hr Hc. rewrite mat_lookup_zeros by lia. eauto. }
  exists K. split; [exact Hrun|]. split; [|split].
  - rewrite Hlen. unfold np_zeros2. rewrite length_replicate. lia.
  - apply Hrows. unfold np_zeros2, np_zeros.
    apply Forall_replicate. rewrite length_replicate. lia.
  - intros r c Hr Hc. rewrite Hent, mat_lookup_zeros by lia. simpl.
    unfold accumulated_entry. f_equal. lra.
Qed.

Lemma force_vector_spec (g : globals) (N : nat) :
  exists f,
    force_vector g N = Ok f /\
    length f = S N /\
    forall j, (j <= N)%nat -> f !! j = Some (if decide (j = N) then F g else 0).
Proof.
  unfold force_vector, set_last, np_zeros.
  replace (N + 1)%nat with (S N) by lia.
  cbn [replicate]. eexists. split; [reflexivity|].
  change (0 :: replicate N 0) with (replicate (S N) 0).
  rewrite length_insert, length_replicate. split; [reflexivity|].
  intros j Hj. simpl pred. case_decide as Hd.
  - subst j. apply list_lookup_insert_eq. rewrite length_replicate. lia.
  - rewrite list_lookup_insert_ne by lia.
    apply lookup_replicate_2. lia.
Qed.

Lemma element_contribution_sym (g : globals) (dx : R) (i r c : nat) :
  element_contribution g dx i r c = element_contribution g dx i c r.
Proof.
  unfold element_contribution. repeat case_decide; try tauto; try congruence; lra.
Qed.

Lemma contribution_row (g : globals) (dx : R) (i r n : nat) (w : nat -> R) :
  (S i < n)%nat ->
  sum_f (fun c => element_contribution g dx i r c * w c) n =
  element_stiffness g dx i *
    ((if decide (r = i) then w i - w (S i) else 0)
     + (if decide (r = S i) then w (S i) - w i else 0)).
Proof.
  intros Hi.
  rewrite (sum_f_ext _
    (fun c => (if decide (c = i)
               then element_contribution g dx i r c * w c else 0)
              + (if decide (c = S i)
                 then element_contribution g dx i r c * w c else 0))).
  2:{ intros c _. unfold element_contribution.
      repeat case_decide; subst; try lia; try tauto; lra. }
  rewrite sum_f_plus, !sum_f_at.
  rewrite !decide_True by lia.
  unfold element_contribution.
  repeat case_decide; subst; try lia; try tauto; lra.
Qed.

Lemma accumulated_row (g : globals) (N r : nat) (w : nat -> R) :
  (r <= N)%nat ->
  sum_f (fun c => accumulated_entry g N r c * w c) (S N) =
    (if decide (r < N)%nat
     then element_stiffness g (L g / INR N) r * (w r - w (S r)) else 0)
    + (if decide (1 <= r)%nat
       then element_stiffness g (L g / INR N) (pred r) * (w r - w (pred r))
       else 0).
Proof.
  intros Hr. unfold accumulated_entry.
  rewrite (sum_f_ext _ (fun c => sum_f (fun i =>
             element_contribution g (L g / INR N) i r c * w c) N)).
  2:{ intros c _. symmetry. apply sum_f_scale. }
  rewrite (sum_f_swap (fun i c => element_contribution g (L g / INR N) i r c * w c)).
  rewrite (sum_f_ext _ (fun i =>
     (if decide (i = r)
      then element_stiffness g (L g / INR N) i * (w i - w (S i)) else 0)
     + (if decide (i = pred r)
        then (if decide (1 <= r)%nat
              then element_stiffness g (L g / INR N) i * (w (S i) - w i)
              else 0)
        else 0))).
  2:{ intros i Hi. rewrite contribution_row by lia.
      repeat case_decide; subst; try lia; lra. }
  rewrite sum_f_plus, !sum_f_at.
  repeat case_decide; subst; try lia; try lra.
  all: replace (S (pred r)) with r by lia; lra.
Qed.

Lemma mat_vec_lookup (K : matrix) (u : vector) (n : nat) (e : nat -> nat -> R) :
  length K = n ->
  Forall (fun row : vector => length row = n) K ->
  length u = n ->
  (forall r c, (r < n)%nat -> (c < n)%nat -> mat_lookup K r c = Some (e r c)) ->
  forall r, (r < n)%nat ->
    mat_vec K u !! r = Some (sum_f (fun c => e r c * u !!! c) n).
Proof.
  intros HK Hrows Hu Hent r Hr. unfold mat_vec.
  rewrite list_lookup_fmap.
  destruct (lookup_lt_is_Some_2 K r) as [row Hrow]; [lia|].
  rewrite Hrow. simpl. f_equal.
  assert (Hlen : length row = n).
  { exact (proj1 (Forall_lookup _ _) Hrows r row Hrow). }
  rewrite dot_as_sum by congruence. rewrite Hlen.
  apply sum_f_ext. intros c Hc. f_equal.
  specialize (Hent r c Hr Hc). unfold mat_lookup in Hent.
  rewrite Hrow in Hent. simpl in Hent.
  apply list_lookup_total_correct. assumption.
Qed.

Lemma mat_vec_length (K : matrix) (u : vector) :
  length (mat_vec K u) = length K.
Proof. unfold mat_vec. apply length_fmap. Qed.

Lemma fem_system_spec (g : globals) (N : nat) :
  (1 <= N)%nat ->
  exists K f, fem_system g N = Ok (K, f) /\ is_fem_system g N K f.
Proof.
  intros HN. unfold fem_system.
  rewrite py_div_ok by (apply INR_pos_ne0; assumption). simpl.
  destruct (assemble_spec g N HN) as (K & -> & HK & Hrows & Hent). simpl.
  destruct (force_vector_spec g N) as (f & -> & Hf & Hfent). simpl.
  rewrite apply_boundary_conditions_ok by (rewrite Hent by lia; eauto).
  do 2 eexists. split; [reflexivity|].
  split; [rewrite iadd_at_length; assumption|].
  split; [apply iadd_at_rows; assumption|].
  split; [assumption|]. split; [|assumption].
  intros r c Hr Hc. unfold constrained_entry.
  rewrite mat_lookup_iadd_at, Hent by assumption.
  repeat case_decide; try (exfalso; lia); simpl; f_equal; lra.
Qed.

Lemma constrained_sum (g : globals) (N r : nat) (u : vector) :
  (r <= N)%nat ->
  sum_f (fun c => constrained_entry g N r c * u !!! c) (S N) =
  constrained_row g N u r.
Proof.
  intros Hr. unfold constrained_entry, constrained_row.
  rewrite (sum_f_ext _ (fun c =>
     accumulated_entry g N r c * u !!! c
     + (if decide (c = 0%nat)
        then (if decide (r = 0%nat) then 1e20 * u !!! c else 0) else 0))).
  2:{ intros c _. repeat case_decide; subst; try lia; try tauto; lra. }
  rewrite sum_f_plus, sum_f_at, (accumulated_row g N r (fun c => u !!! c)) by lia.
  destruct (decide (0 < S N)%nat); [|lia]. lra.
Qed.

Lemma system_mat_vec (g : globals) (N : nat) (K : matrix) (f u : vector) :
  is_fem_system g N K f ->
  length u = S N ->
  forall r, (r <= N)%nat -> mat_vec K u !! r = Some (constrained_row g N u r).
Proof.
  intros (HK & Hrows & _ & Hent & _) Hu r Hr.
  rewrite (mat_vec_lookup K u (S N) (constrained_entry g N)); try assumption; try lia.
  - rewrite constrained_sum by lia. reflexivity.
  - intros r' c' Hr' Hc'. apply Hent; lia.
Qed.

(** [u] solves the constrained system with end load [Fv] exactly when the
    penalty spring and every element carry the force [Fv]. *)
Lemma rows_iff_forces (g : globals) (N : nat) (u : vector) (Fv : R) :
  (1 <= N)%nat ->
  (forall r, (r <= N)%nat ->
     constrained_row g N u r = if decide (r = N) then Fv else 0) <->
  (1e20 * u !!! 0%nat = Fv /\
   forall i, (i < N)%nat ->
     element_stiffness g (L g / INR N) i * (u !!! S i - u !!! i) = Fv).
Proof.
  intros HN. split.
  - intros Hrows.
    assert (Hstep : forall i, (i < N)%nat ->
              element_stiffness g (L g / INR N) i * (u !!! S i - u !!! i)
              = 1e20 * u !!! 0%nat).
    { induction i as [|i IH]; intros Hi.
      - specialize (Hrows 0%nat ltac:(lia)). unfold constrained_row in Hrows.
        repeat case_decide; try lia. lra.
      - specialize (IH ltac:(lia)).
        specialize (Hrows (S i) ltac:(lia)). unfold constrained_row in Hrows.
        repeat case_decide; try lia. simpl pred in Hrows. lra. }
    assert (HP : 1e20 * u !!! 0%nat = Fv).
    { specialize (Hrows N ltac:(lia)). unfold constrained_row in Hrows.
      specialize (Hstep (pred N) ltac:(lia)).
      replace (S (pred N)) with N in Hstep by lia.
      repeat case_decide; try lia. lra. }
    split; [assumption|]. intros i Hi. rewrite Hstep by assumption. assumption.
  - intros [HP Hel] r Hr. unfold constrained_row.
    pose proof (Hel r) as Hr1. pose proof (Hel (pred r)) as Hr2.
    repeat case_decide; subst; try lia.
    all: try specialize (Hr1 ltac:(lia)); try specialize (Hr2 ltac:(lia)).
    all: try (replace (S (pred r)) with r in Hr2 by lia).
    all: try (replace (S (pred N)) with N in Hr2 by lia).
    all: lra.
Qed.

Lemma element_stiffness_pos (g : globals) (dx : R) (i : nat) :
  valid_model g -> 0 < dx -> 0 < element_stiffness g dx i.
Proof.
  intros (HL & HE & HA) Hdx. unfold element_stiffness, area_modified.
  apply Rdiv_lt_0_compat; [|assumption].
  apply Rmult_lt_0_compat; [assumption|].
  apply Rmult_lt_0_compat; [assumption|apply exp_pos].
Qed.

Lemma mesh_dx_pos (g : globals) (N : nat) :
  valid_model g -> (1 <= N)%nat -> 0 < L g / INR N.
Proof.
  intros (HL & _) HN. apply Rdiv_lt_0_compat; [assumption|].
  apply lt_0_INR. lia.
Qed.

Lemma system_solves_iff (g : globals) (N : nat) (K : matrix) (f u f' : vector)
    (Fv : R) :
  (1 <= N)%nat ->
  is_fem_system g N K f ->
  length u = S N ->
  length f' = S N ->
  (forall j, (j <= N)%nat -> f' !! j = Some (if decide (j = N) then Fv else 0)) ->
  mat_vec K u = f' <->
  (1e20 * u !!! 0%nat = Fv /\
   forall i, (i < N)%nat ->
     element_stiffness g (L g / INR N) i * (u !!! S i - u !!! i) = Fv).
Proof.
  intros HN Hsys Hu Hf' Hf'ent.
  rewrite <- rows_iff_forces by assumption. split.
  - intros Heq r Hr.
    pose proof (system_mat_vec g N K f u Hsys Hu r Hr) as Hrow.
    rewrite Heq, Hf'ent in Hrow by assumption. congruence.
  - intros Hrows. apply list_eq. intros r.
    destruct (decide (r <= N)%nat) as [Hr|Hr].
    + rewrite (system_mat_vec g N K f u Hsys Hu r Hr), Hf'ent, Hrows by assumption.
      reflexivity.
    + rewrite !lookup_ge_None_2; [reflexivity| |].
      * lia.
      * rewrite mat_vec_length. destruct Hsys as (-> & _). lia.
Qed.

Lemma forces_closed_form (g : globals) (N : nat) (u : vector) (Fv : R) :
  valid_model g -> (1 <= N)%nat ->
  (1e20 * u !!! 0%nat = Fv /\
   forall i, (i < N)%nat ->
     element_stiffness g (L g / INR N) i * (u !!! S i - u !!! i) = Fv) <->
  (forall i, (i <= N)%nat ->
     u !!! i = nodal_displacement g (L g / INR N) Fv i).
Proof.
  intros Hg HN.
  assert (Hk : forall i, 0 < element_stiffness g (L g / INR N) i).
  { intros i. apply element_stiffness_pos; [assumption|].
    apply mesh_dx_pos; assumption. }
  unfold nodal_displacement. split.
  - intros [HP Hel]. induction i as [|i IH]; intros Hi.
    + simpl. lra.
    + specialize (IH ltac:(lia)). specialize (Hel i ltac:(lia)).
      specialize (Hk i). cbn [sum_f].
      assert (Hd : u !!! S i - u !!! i
                   = Fv / element_stiffness g (L g / INR N) i).
      { rewrite <- Hel. field. lra. }
      lra.
  - intros Hcl. split.
    + rewrite (Hcl 0%nat) by lia. simpl. lra.
    + intros i Hi. rewrite (Hcl (S i)), (Hcl i) by lia. cbn [sum_f].
      specialize (Hk i). field. lra.
Qed.

Lemma displacement_field_length (g : globals) (N : nat) (Fv : R) :
  length (displacement_field g N Fv) = S N.
Proof. unfold displacement_field. rewrite length_fmap, length_seq. reflexivity. Qed.

Lemma displacement_field_lookup (g : globals) (N : nat) (Fv : R) (i : nat) :
  (i <= N)%nat ->
  displacement_field g N Fv !! i = Some (nodal_displacement g (L g / INR N) Fv i).
Proof.
  intros Hi. unfold displacement_field. rewrite list_lookup_fmap.
  rewrite lookup_seq_lt by lia. reflexivity.
Qed.

Lemma closed_form_unique (g : globals) (N : nat) (u : vector) (Fv : R) :
  length u = S N ->
  (forall i, (i <= N)%nat ->
     u !!! i = nodal_displacement g (L g / INR N) Fv i) <->
  u = displacement_field g N Fv.
Proof.
  intros Hu. split.
  - intros Hcl. apply list_eq. intros i.
    destruct (decide (i <= N)%nat) as [Hi|Hi].
    + rewrite displacement_field_lookup by assumption.
      rewrite <- Hcl by assumption.
      apply list_lookup_lookup_total_lt. lia.
    + rewrite !lookup_ge_None_2; [reflexivity| |].
      * rewrite displacement_field_length. lia.
      * lia.
  - intros -> i Hi. apply list_lookup_total_correct.
    apply displacement_field_lookup. assumption.
Qed.

Lemma zeros_lookup (n j : nat) :
  (j < n)%nat -> np_zeros n !! j = Some 0.
Proof. intros Hj. unfold np_zeros. apply lookup_replicate_2. assumption. Qed.

Lemma nodal_displacement_0 (g : globals) (dx : R) (i : nat) :
  nodal_displacement g dx 0 i = 0.
Proof.
  unfold nodal_displacement.
  rewrite (sum_f_ext _ (fun _ => 0)) by (intros; lra).
  rewrite sum_f_zero. lra.
Qed.

Lemma system_nonsingular (g : globals) (N : nat) (K : matrix) (f : vector) :
  valid_model g -> (1 <= N)%nat ->
  is_fem_system g N K f -> nonsingular K.
Proof.
  intros Hg HN Hsys v Hv Hzero.
  pose proof Hsys as (HK & _). rewrite HK in *.
  apply (system_solves_iff g N K f v (np_zeros (S N)) 0) in Hzero;
    try assumption.
  - pose proof (proj1 (forces_closed_form g N v 0 Hg HN) Hzero) as Hcl.
    clear Hzero. rename Hcl into Hzero.
    apply list_eq. intros i.
    destruct (decide (i <= N)%nat) as [Hi|Hi].
    + rewrite zeros_lookup by lia.
      rewrite <- (nodal_displacement_0 g (L g / INR N) i).
      rewrite <- Hzero by assumption.
      apply list_lookup_lookup_total_lt. lia.
    + rewrite !lookup_ge_None_2; [reflexivity| |].
      * unfold np_zeros. rewrite length_replicate. lia.
      * lia.
  - unfold np_zeros. apply length_replicate.
  - intros j Hj. rewrite zeros_lookup by lia. case_decide; reflexivity.
Qed.

Lemma system_solution (g : globals) (N : nat) (K : matrix) (f u : vector) :
  valid_model g -> (1 <= N)%nat ->
  is_fem_system g N K f ->
  length u = S N ->
  mat_vec K u = f <-> u = displacement_field g N (F g).
Proof.
  intros Hg HN Hsys Hu.
  pose proof Hsys as (_ & _ & Hf & _ & Hfent).
  rewrite (system_solves_iff g N K f u f (F g)) by assumption.
  rewrite forces_closed_form by assumption.
  apply closed_form_unique. assumption.
Qed.

Lemma system_square (g : globals) (N : nat) (K : matrix) (f : vector) :
  is_fem_system g N K f -> square K /\ length f = length K.
Proof.
  intros (HK & Hrows & Hf & _). unfold square. rewrite HK. split; assumption.
Qed.

(** The displacement computation has exactly one outcome: the closed-form
    field. *)
Lemma fem_displacement_closed_form (g : globals) (N : nat) (r : result vector) :
  valid_model g -> (1 <= N)%nat ->
  fem_displacement_modified g N r <-> r = Ok (displacement_field g N (F g)).
Proof.
  intros Hg HN.
  destruct (fem_system_spec g N HN) as (K & f & Hrun & Hsys).
  pose proof (system_nonsingular g N K f Hg HN Hsys) as Hns.
  pose proof (system_square g N K f Hsys) as [Hsq Hlen].
  pose proof Hsys as (HK & _).
  unfold fem_displacement_modified, rbind, rlift. rewrite Hrun. split.
  - intros [((K' & f') & Heq & Hsolve)|(e & Heq & _)]; [|discriminate].
    injection Heq as -> ->.
    destruct Hsolve as [u _ _ Hu _ Hmv| _ _ Hsing]; [|contradiction].
    f_equal. apply (system_solution g N K f u); try assumption. congruence.
  - intros ->. left. exists (K, f). split; [reflexivity|].
    apply solve_ok; try assumption.
    + rewrite displacement_field_length. congruence.
    + apply (system_solution g N K f); try assumption; try reflexivity.
      apply displacement_field_length.
Qed.

Lemma nodal_displacement_step (g : globals) (dx Fv : R) (i : nat) :
  nodal_displacement g dx Fv (S i) =
  nodal_displacement g dx Fv i + Fv / element_stiffness g dx i.
Proof. unfold nodal_displacement. cbn [sum_f]. lra. Qed.

(** ** Displacement and stress of the computed field *)

(** C7: for a valid rod model (any taper rate, in particular
    [alpha >= 0]), a positive end load and [N >= 1],
    [fem_displacement_modified] returns a field, of length [N+1], and each
    node's displacement is at least that of the node before it. *)
Theorem displacement_nondecreasing (g : globals) (N : nat) :
  valid_model g -> 0 < F g -> (1 <= N)%nat ->
  (exists u, fem_displacement_modified g N (Ok u)) /\
  forall r, fem_displacement_modified g N r ->
    exists u, r = Ok u /\ length u = S N /\
      forall i, (i < N)%nat ->
        exists a b, u !! i = Some a /\ u !! S i = Some b /\ a <= b.
Proof.
  intros Hg HF HN. split.
  - eexists. apply fem_displacement_closed_form; [assumption..|reflexivity].
  - intros r Hr. apply fem_displacement_closed_form in Hr; [|assumption..].
    subst r. eexists. split; [reflexivity|].
    split; [apply displacement_field_length|].
    intros i Hi. do 2 eexists.
    rewrite !displacement_field_lookup by lia.
    split; [reflexivity|]. split; [reflexivity|].
    rewrite nodal_displacement_step.
    pose proof (element_stiffness_pos g (L g / INR N) i Hg
                  (mesh_dx_pos g N Hg HN)) as Hk.
    assert (0 < F g / element_stiffness g (L g / INR N) i)
      by (apply Rdiv_lt_0_compat; assumption).
    lra.
Qed.

(** C8: for a valid rod model, a positive end load and [N >= 1] the stress
    pass of the main program returns one stress per element and every one
    of them is positive. *)
Theorem stress_positive (g : globals) (N : nat) :
  valid_model g -> 0 < F g -> (1 <= N)%nat ->
  (exists s, sigma_fem_modified g N (Ok s)) /\
  forall r, sigma_fem_modified g N r ->
    exists s, r = Ok s /\ length s = N /\ Forall (fun x => 0 < x) s.
Proof.
  intros Hg HF HN.
  pose proof (mesh_dx_pos g N Hg HN) as Hdx.
  destruct (stress_spec g (displacement_field g N (F g)) N (L g / INR N))
    as (s & Hs & Hlen & Hent); [lra|apply displacement_field_length|].
  assert (Hrun : (let* dx := py_div (L g) (INR N) in
                  stress g (displacement_field g N (F g)) N dx) = Ok s).
  { rewrite py_div_ok by (apply not_0_INR; lia). exact Hs. }
  split.
  - exists s. unfold sigma_fem_modified, rbind, rlift. left.
    exists (displacement_field g N (F g)). split.
    + apply fem_displacement_closed_form; [assumption..|reflexivity].
    + symmetry. exact Hrun.
  - intros r [(u & Hu & Hr)|(e & He & _)].
    + apply fem_displacement_closed_form in Hu; [|assumption..].
      injection Hu as ->. unfold rlift in Hr. rewrite Hrun in Hr. subst r.
      exists s. split; [reflexivity|]. split; [assumption|].
      apply Forall_lookup. intros i x Hx.
      assert (Hi : (i < N)%nat) by (rewrite <- Hlen; eapply lookup_lt_Some; eassumption).
      rewrite (Hent i _ _ (displacement_field_lookup g N (F g) i ltac:(lia))
                 (displacement_field_lookup g N (F g) (S i) ltac:(lia))) in Hx.
      injection Hx as <-.
      rewrite nodal_displacement_step.
      pose proof (element_stiffness_pos g (L g / INR N) i Hg Hdx) as Hk.
      destruct Hg as (_ & HE & _).
      apply Rmult_lt_0_compat; [apply Rdiv_lt_0_compat; assumption|].
      apply Rdiv_lt_0_compat; [|assumption].
      assert (0 < F g / element_stiffness g (L g / INR N) i)
        by (apply Rdiv_lt_0_compat; assumption).
      lra.
    + apply fem_displacement_closed_form in He; [|assumption..]. discriminate.
Qed.

Lemma exp_le_mono (x y : R) : x <= y -> exp x <= exp y.
Proof.
  intros [Hlt| ->]; [left; apply exp_increasing; assumption|right; reflexivity].
Qed.

Lemma midpoint_le_length (g : globals) (N j : nat) :
  valid_model g -> (j < N)%nat -> (INR j + 1 / 2) * (L g / INR N) <= L g.
Proof.
  intros (HL & _) Hj.
  assert (HN : 0 < INR N) by (apply lt_0_INR; lia).
  assert (Hj' : INR j + 1 <= INR N).
  { rewrite <- S_INR. apply le_INR. lia. }
  replace ((INR j + 1 / 2) * (L g / INR N))
    with (L g * ((INR j + 1 / 2) / INR N)) by (field; lra).
  assert ((INR j + 1 / 2) / INR N <= 1).
  { apply (Rmult_le_reg_r (INR N)); [assumption|].
    replace ((INR j + 1 / 2) / INR N * INR N) with (INR j + 1 / 2) by (field; lra).
    lra. }
  nra.
Qed.

(** Each element of a mesh with non-negative taper is at most as stiff as
    a piece of the same length cut at the thick end. *)
Lemma element_compliance_lower (g : globals) (N j : nat) :
  valid_model g -> 0 <= alpha_modified g -> (1 <= N)%nat -> (j < N)%nat ->
  (L g / INR N) / (E g * A0 g * exp (alpha_modified g * L g))
  <= 1 / element_stiffness g (L g / INR N) j.
Proof.
  intros Hg Ha HN Hj.
  pose proof (mesh_dx_pos g N Hg HN) as Hdx.
  pose proof (midpoint_le_length g N j Hg Hj) as Hmid.
  destruct Hg as (HL & HE & HA).
  unfold element_stiffness, area_modified.
  set (dx := L g / INR N) in *.
  set (x := (INR j + 1 / 2) * dx) in *.
  assert (Hexp : exp (alpha_modified g * x) <= exp (alpha_modified g * L g)).
  { apply exp_le_mono. nra. }
  pose proof (exp_pos (alpha_modified g * x)) as Hp1.
  pose proof (exp_pos (alpha_modified g * L g)) as Hp2.
  replace (1 / (E g * (A0 g * exp (alpha_modified g * x)) / dx))
    with (dx / (E g * A0 g * exp (alpha_modified g * x))) by (field; lra).
  unfold Rdiv. apply Rmult_le_compat_l; [lra|].
  apply Rinv_le_contravar.
  - apply Rmult_lt_0_compat; [nra|assumption].
  - apply Rmult_le_compat_l; [nra|assumption].
Qed.

Lemma fixed_node_tolerance (g : globals) (N : nat) :
  valid_model g -> 0 <= alpha_modified g -> F g <> 0 -> (1 <= N)%nat ->
  E g * A0 g * exp (alpha_modified g * L g) <= 1e14 * L g ->
  Rabs (nodal_displacement g (L g / INR N) (F g) 0)
  < 1e-6 * Rabs (nodal_displacement g (L g / INR N) (F g) N).
Proof.
  intros Hg Ha HF HN Hbound.
  unfold nodal_displacement. cbn [sum_f].
  set (S' := sum_f (fun j => 1 / element_stiffness g (L g / INR N) j) N).
  assert (Hsum : sum_f (fun j => F g / element_stiffness g (L g / INR N) j) N
                 = S' * F g).
  { unfold S'. rewrite <- sum_f_scale. apply sum_f_ext. intros j _.
    unfold Rdiv. ring. }
  rewrite Hsum.
  assert (HS : 1e-14 <= S').
  { pose proof (sum_f_ge (fun j => 1 / element_stiffness g (L g / INR N) j)
                  ((L g / INR N) / (E g * A0 g * exp (alpha_modified g * L g)))
                  N (fun j Hj => element_compliance_lower g N j Hg Ha HN Hj))
      as Hge.
    fold S' in Hge.
    pose proof (exp_pos (alpha_modified g * L g)) as Hp.
    destruct Hg as (HL & HE & HA).
    assert (HNp : 0 < INR N) by (apply lt_0_INR; lia).
    set (D := E g * A0 g * exp (alpha_modified g * L g)) in *.
    assert (HD : 0 < D) by (unfold D; apply Rmult_lt_0_compat; [nra|assumption]).
    replace (INR N * (L g / INR N / D)) with (L g / D) in Hge by (field; lra).
    assert (1e-14 <= L g / D).
    { apply (Rmult_le_reg_r D); [assumption|].
      replace (L g / D * D) with (L g) by (field; lra). lra. }
    lra. }
  replace (F g / 1e20 + 0) with (F g * 1e-20) by lra.
  replace (F g / 1e20 + S' * F g) with (F g * (1e-20 + S')) by lra.
  rewrite !Rabs_mult.
  rewrite (Rabs_pos_eq 1e-20) by lra.
  rewrite (Rabs_pos_eq (1e-20 + S')) by lra.
  pose proof (Rabs_pos_lt (F g) HF) as HFp.
  nra.
Qed.

Lemma weird_py_valid : valid_model weird_py.
Proof. unfold valid_model. simpl. lra. Qed.

(** C3: with the constants of the source and any [N >= 1],
    [fem_displacement_modified] returns a field of length [N+1] whose entry
    at the fixed node is below [1e-6] of the entry at the loaded end, in
    absolute value. *)
Theorem fixed_node_within_tolerance (N : nat) :
  (1 <= N)%nat ->
  (exists u, fem_displacement_modified weird_py N (Ok u)) /\
  forall r, fem_displacement_modified weird_py N r ->
    exists u u0 uN,
      r = Ok u /\ length u = S N /\
      u !! 0%nat = Some u0 /\ u !! N = Some uN /\
      Rabs u0 < 1e-6 * Rabs uN.
Proof.
  intros HN. split.
  - eexists. apply fem_displacement_closed_form;
      [apply weird_py_valid|assumption|reflexivity].
  - intros r Hr.
    apply fem_displacement_closed_form in Hr; [|apply weird_py_valid|assumption].
    subst r. do 3 eexists. split; [reflexivity|].
    split; [apply displacement_field_length|].
    rewrite !displacement_field_lookup by lia.
    split; [reflexivity|]. split; [reflexivity|].
    apply fixed_node_tolerance; try assumption.
    + apply weird_py_valid.
    + simpl. lra.
    + simpl. lra.
    + simpl. replace (1 * 1.0) with 1 by lra.
      pose proof exp_le_3. lra.
Qed.

(** ** Structure of the assembled matrix *)

Lemma accumulated_entry_sym (g : globals) (N r c : nat) :
  accumulated_entry g N r c = accumulated_entry g N c r.
Proof.
  unfold accumulated_entry. apply sum_f_ext. intros i _.
  apply element_contribution_sym.
Qed.

Lemma mat_lookup_out_of_range (K : matrix) (n r c : nat) :
  length K = n ->
  Forall (fun row : vector => length row = n) K ->
  (n <= r)%nat \/ (n <= c)%nat ->
  mat_lookup K r c = None.
Proof.
  intros HK Hrows Hrc. unfold mat_lookup.
  destruct (K !! r) as [row|] eqn:Hrow; [|reflexivity]. simpl.
  pose proof (proj1 (Forall_lookup _ _) Hrows r row Hrow) as Hlen.
  simpl in Hlen. apply lookup_lt_Some in Hrow.
  apply lookup_ge_None_2. lia.
Qed.

Lemma foldr_plus_as_sum (l : vector) :
  foldr Rplus 0 l = sum_f (fun c => l !!! c) (length l).
Proof.
  induction l as [|x l IH]; [reflexivity|].
  cbn [foldr length]. rewrite sum_f_shift, IH. reflexivity.
Qed.

Lemma ones_lookup_total (n i : nat) :
  (i < n)%nat -> replicate n 1 !!! i = 1.
Proof.
  intros Hi. apply list_lookup_total_correct, lookup_replicate_2. assumption.
Qed.

Lemma accumulated_row_ones (g : globals) (N r : nat) (w : nat -> R) :
  (r <= N)%nat ->
  (forall c, (c <= N)%nat -> w c = 1) ->
  sum_f (fun c => accumulated_entry g N r c * w c) (S N) = 0.
Proof.
  intros Hr Hw. rewrite accumulated_row by assumption.
  repeat case_decide; rewrite ?Hw by lia; lra.
Qed.

(** C10: for [N >= 1] the assembled matrix is symmetric, each of its rows
    sums to zero and it is singular (the vector of ones is in its kernel);
    the matrix that [apply_boundary_conditions] returns for it is still
    symmetric. *)
Theorem assembled_matrix_structure (g : globals) (N : nat) :
  (1 <= N)%nat ->
  exists K,
    assemble_global_stiffness_matrix g N = Ok K /\
    (forall r c, mat_lookup K r c = mat_lookup K c r) /\
    Forall (fun row : vector => foldr Rplus 0 row = 0) K /\
    ~ nonsingular K /\
    forall f, exists K',
      apply_boundary_conditions K f = Ok (K', f) /\
      forall r c, mat_lookup K' r c = mat_lookup K' c r.
Proof.
  intros HN.
  destruct (assemble_spec g N HN) as (K & Hrun & HK & Hrows & Hent).
  assert (Hsym : forall r c, mat_lookup K r c = mat_lookup K c r).
  { intros r c.
    destruct (decide (r <= N /\ c <= N)%nat) as [[Hr Hc]|Hout].
    - rewrite !Hent by assumption. f_equal. apply accumulated_entry_sym.
    - rewrite !(mat_lookup_out_of_range K (S N)); try assumption; try reflexivity; lia. }
  exists K. split; [assumption|]. split; [assumption|]. split; [|split].
  - apply Forall_lookup. intros r row Hrow.
    pose proof (proj1 (Forall_lookup _ _) Hrows r row Hrow) as Hlen.
    simpl in Hlen.
    assert (Hr : (r <= N)%nat) by (apply lookup_lt_Some in Hrow; lia).
    rewrite foldr_plus_as_sum, Hlen.
    rewrite <- (accumulated_row_ones g N r (fun _ => 1) Hr) by reflexivity.
    apply sum_f_ext. intros c Hc.
    specialize (Hent r c Hr ltac:(lia)). unfold mat_lookup in Hent.
    rewrite Hrow in Hent. simpl in Hent.
    rewrite (list_lookup_total_correct _ _ _ Hent). lra.
  - intros Hns.
    specialize (Hns (replicate (S N) 1)).
    rewrite HK, length_replicate in Hns.
    assert (Hz : replicate (S N) 1 = np_zeros (S N)).
    { apply Hns; [reflexivity|].
      apply list_eq. intros r.
      destruct (decide (r <= N)%nat) as [Hr|Hr].
      - rewrite (mat_vec_lookup K _ (S N) (accumulated_entry g N));
          try assumption; try lia.
        + rewrite zeros_lookup by lia. f_equal.
          apply accumulated_row_ones; [assumption|].
          intros c Hc. apply ones_lookup_total. lia.
        + apply length_replicate.
        + intros r' c' Hr' Hc'. apply Hent; lia.
      - rewrite !lookup_ge_None_2; [reflexivity| |].
        + unfold np_zeros. rewrite length_replicate. lia.
        + rewrite mat_vec_length. lia. }
    assert (H0 : replicate (S N) 1 !! 0%nat = np_zeros (S N) !! 0%nat)
      by (rewrite Hz; reflexivity).
    unfold np_zeros in H0. simpl in H0. injection H0 as H0. lra.
  - intros f. exists (iadd_at 0 0 1e20 K).
    unfold apply_boundary_conditions. rewrite (Hent 0%nat 0%nat) by lia.
    split; [reflexivity|].
    intros r c. rewrite !mat_lookup_iadd_at, Hsym.
    repeat case_decide; try tauto; reflexivity.
Qed.

(** ** The assembled system *)

(** At a node shared by two elements the diagonal entry is the sum of both
    element stiffnesses. *)
Lemma accumulated_diag (g : globals) (N r : nat) :
  (1 <= r)%nat -> (r < N)%nat ->
  accumulated_entry g N r r =
    element_stiffness g (L g / INR N) (pred r)
    + element_stiffness g (L g / INR N) r.
Proof.
  intros Hr1 HrN.
  pose proof (accumulated_row g N r
                (fun c => if decide (c = r) then 1 else 0) ltac:(lia)) as Hrow.
  rewrite (sum_f_ext _ (fun c =>
             if decide (c = r) then accumulated_entry g N r c else 0)) in Hrow.
  2:{ intros c _. destruct (decide (c = r)); lra. }
  rewrite sum_f_at in Hrow. revert Hrow.
  repeat case_decide; try (exfalso; lia); intros Hrow; lra.
Qed.

(** C4: for [N >= 1] the assembler returns an (N+1)x(N+1) matrix whose entry
    [(r, c)] is the sum, over the elements [i < N], of what element [i]
    contributes there: [E * area((i + 1/2) * dx) / dx] times
    [[1, -1], [-1, 1]] on rows and columns [i], [i+1] and nothing elsewhere
    (so a node shared by two elements carries the sum of both stiffnesses);
    the force vector has length [N+1], is zero everywhere except at its
    last index [N], where it is [F]. *)
Theorem assembly_accumulates (g : globals) (N : nat) :
  (1 <= N)%nat ->
  exists K f,
    assemble_global_stiffness_matrix g N = Ok K /\
    force_vector g N = Ok f /\
    length K = S N /\
    Forall (fun row : vector => length row = S N) K /\
    (forall r c, (r <= N)%nat -> (c <= N)%nat ->
       mat_lookup K r c =
         Some (sum_f (fun i => element_contribution g (L g / INR N) i r c) N)) /\
    (forall r, (1 <= r)%nat -> (r < N)%nat ->
       mat_lookup K r r =
         Some (element_stiffness g (L g / INR N) (pred r)
               + element_stiffness g (L g / INR N) r)) /\
    length f = S N /\
    (forall j, (j <= N)%nat ->
       f !! j = Some (if decide (j = N) then F g else 0)).
Proof.
  intros HN.
  destruct (assemble_spec g N HN) as (K & HrunK & HK & Hrows & Hent).
  destruct (force_vector_spec g N) as (f & Hrunf & Hf & Hfent).
  exists K, f. repeat split; try assumption.
  intros r Hr1 HrN. rewrite Hent by lia. f_equal.
  apply accumulated_diag; assumption.
Qed.

Lemma assembly_accumulates_witness :
  exists K f,
    assemble_global_stiffness_matrix weird_py 4 = Ok K /\
    force_vector weird_py 4 = Ok f /\
    length K = 5%nat /\ length f = 5%nat /\
    f !! 4%nat = Some 1000.
Proof.
  destruct (assembly_accumulates weird_py 4 ltac:(lia))
    as (K & f & HK & Hf & HlenK & _ & _ & _ & Hlenf & Hfent).
  exists K, f. repeat split; try assumption.
  exact (Hfent 4%nat ltac:(lia)).
Defined.

(** ** Singular systems *)

Lemma solve_singular_raises (K : matrix) (f : vector) (r : result vector) :
  ~ nonsingular K -> np_linalg_solve K f r -> r = Raise LinAlgError.
Proof.
  intros Hsing [u _ _ _ Hns _|_ _ _]; [contradiction|reflexivity].
Qed.

(** ** Witnesses *)

Lemma fixed_node_within_tolerance_witness :
  exists u, fem_displacement_modified weird_py 4 (Ok u).
Proof.
  exact (proj1 (fixed_node_within_tolerance 4 ltac:(lia))).
Defined.

Lemma untapered_valid : valid_model untapered.
Proof. unfold valid_model. simpl. lra. Qed.

Lemma displacement_nondecreasing_witness :
  exists u, fem_displacement_modified untapered 2 (Ok u).
Proof.
  refine (proj1 (displacement_nondecreasing untapered 2 untapered_valid _ _)).
  - simpl. lra.
  - lia.
Defined.

Lemma stress_positive_witness :
  exists s, sigma_fem_modified weird_py 4 (Ok s).
Proof.
  refine (proj1 (stress_positive weird_py 4 weird_py_valid _ _)).
  - simpl. lra.
  - lia.
Defined.

Lemma fem_weird_py_1 :
  fem_displacement_modified weird_py 1 (Ok (displacement_field weird_py 1 1000)).
Proof.
  apply fem_displacement_closed_form; [apply weird_py_valid|lia|reflexivity].
Qed.

Lemma assembled_matrix_structure_witness :
  exists K,
    assemble_global_stiffness_matrix weird_py 4 = Ok K /\
    (forall r c, mat_lookup K r c = mat_lookup K c r) /\
    ~ nonsingular K.
Proof.
  destruct (assembled_matrix_structure weird_py 4 ltac:(lia))
    as (K & HK & Hsym & _ & Hsing & _).
  exists K. repeat split; assumption.
Defined.

(** * Further properties of the program *)

(** ** Scalar laws *)

(** X1: for a positive base area and a non-negative taper rate the area
    law starts at [A0], is positive everywhere and does not decrease along
    the rod. *)
Theorem area_modified_positive_monotone (g : globals) (x y : R) :
  0 < A0 g -> 0 <= alpha_modified g -> x <= y ->
  area_modified g 0 = A0 g /\
  0 < area_modified g x /\
  area_modified g x <= area_modified g y.
Proof.
  intros HA Ha Hxy. unfold area_modified. split; [|split].
  - rewrite Rmult_0_r, exp_0. lra.
  - apply Rmult_lt_0_compat; [assumption|apply exp_pos].
  - apply Rmult_le_compat_l; [lra|]. apply exp_le_mono. nra.
Qed.

(** X2: for positive [E], [A0], [F] and a taper rate other than zero the
    analytical displacement is returned at every [x], is zero at [x = 0]
    and does not decrease with [x]. *)
Theorem analytical_at_origin_and_monotone (g : globals) (x y : R) :
  0 < E g -> 0 < A0 g -> 0 < F g -> alpha_modified g <> 0 -> x <= y ->
  exists ux uy u0,
    analytical_displacement_modified g x = Ok ux /\
    analytical_displacement_modified g y = Ok uy /\
    analytical_displacement_modified g 0 = Ok u0 /\
    u0 = 0 /\ ux <= uy.
Proof.
  intros HE HA HF Ha Hxy. unfold analytical_displacement_modified.
  assert (Hd : E g * A0 g * alpha_modified g <> 0).
  { assert (0 < E g * A0 g) by (apply Rmult_lt_0_compat; assumption). nra. }
  rewrite py_div_ok by assumption. simpl.
  do 3 eexists. repeat split; try reflexivity.
  - rewrite Rmult_0_r, exp_0. lra.
  - assert (HEA : 0 < E g * A0 g) by (apply Rmult_lt_0_compat; assumption).
    replace (F g / (E g * A0 g * alpha_modified g))
      with (F g / (E g * A0 g) * / alpha_modified g) by (field; lra).
    assert (Hc : 0 < F g / (E g * A0 g)) by (apply Rdiv_lt_0_compat; assumption).
    rewrite !Rmult_assoc. apply Rmult_le_compat_l; [lra|].
    destruct (Rlt_or_le 0 (alpha_modified g)) as [Hpos|Hneg].
    + apply Rmult_le_compat_l; [left; apply Rinv_0_lt_compat; assumption|].
      assert (exp (- alpha_modified g * y) <= exp (- alpha_modified g * x))
        by (apply exp_le_mono; nra).
      lra.
    + assert (Hlt : alpha_modified g < 0) by lra.
      assert (Hi : / alpha_modified g < 0) by (apply Rinv_lt_0_compat; assumption).
      assert (exp (- alpha_modified g * x) <= exp (- alpha_modified g * y))
        by (apply exp_le_mono; nra).
      nra.
Qed.

(** ** Band structure *)

Lemma accumulated_entry_closed (g : globals) (N r c : nat) :
  (r <= N)%nat -> (c <= N)%nat ->
  accumulated_entry g N r c =
    (if decide (r < N)%nat
     then element_stiffness g (L g / INR N) r
          * ((if decide (c = r) then 1 else 0)
             - (if decide (c = S r) then 1 else 0))
     else 0)
    + (if decide (1 <= r)%nat
       then element_stiffness g (L g / INR N) (pred r)
            * ((if decide (c = r) then 1 else 0)
               - (if decide (c = pred r) then 1 else 0))
       else 0).
Proof.
  intros Hr Hc.
  pose proof (accumulated_row g N r
                (fun c' => if decide (c' = c) then 1 else 0) Hr) as Hrow.
  rewrite (sum_f_ext _ (fun c' =>
             if decide (c' = c) then accumulated_entry g N r c' else 0)) in Hrow.
  2:{ intros c' _. destruct (decide (c' = c)); lra. }
  rewrite sum_f_at in Hrow.
  destruct (decide (c < S N)%nat); [|lia].
  rewrite Hrow.
  repeat case_decide; try (exfalso; lia); lra.
Qed.

(** X4: the assembled matrix is tridiagonal: entries two or more columns
    away from the diagonal are zero, the two entries coupling nodes [i] and
    [i+1] are minus the stiffness of element [i], and the corner entries
    are the stiffness of the first and of the last element alone. *)
Theorem stiffness_tridiagonal (g : globals) (N : nat) :
  (1 <= N)%nat ->
  exists K,
    assemble_global_stiffness_matrix g N = Ok K /\
    (forall r c, (r <= N)%nat -> (c <= N)%nat ->
       (r + 2 <= c)%nat \/ (c + 2 <= r)%nat -> mat_lookup K r c = Some 0) /\
    (forall i, (i < N)%nat ->
       mat_lookup K i (S i) = Some (- element_stiffness g (L g / INR N) i) /\
       mat_lookup K (S i) i = Some (- element_stiffness g (L g / INR N) i)) /\
    mat_lookup K 0 0 = Some (element_stiffness g (L g / INR N) 0) /\
    mat_lookup K N N = Some (element_stiffness g (L g / INR N) (pred N)).
Proof.
  intros HN.
  destruct (assemble_spec g N HN) as (K & Hrun & _ & _ & Hent).
  exists K. split; [assumption|]. repeat split.
  - intros r c Hr Hc Hfar. rewrite Hent, accumulated_entry_closed by assumption.
    f_equal. repeat case_decide; try (exfalso; lia); lra.
  - rewrite Hent, accumulated_entry_closed by lia.
    f_equal. repeat case_decide; try (exfalso; lia); try lra.
    all: replace (pred i) with i by lia; lra.
  - rewrite Hent, accumulated_entry_closed by lia.
    f_equal. repeat case_decide; try (exfalso; lia); try lra.
    all: simpl pred; lra.
  - rewrite Hent, accumulated_entry_closed by lia.
    f_equal. repeat case_decide; try (exfalso; lia); lra.
  - rewrite Hent, accumulated_entry_closed by lia.
    f_equal. repeat case_decide; try (exfalso; lia); lra.
Qed.

(** ** Strain energy and kernel *)

Lemma assembled_mat_vec (g : globals) (N : nat) (K : matrix) (u : vector) :
  (1 <= N)%nat ->
  assemble_global_stiffness_matrix g N = Ok K ->
  length u = S N ->
  length (mat_vec K u) = S N /\
  forall r, (r <= N)%nat ->
    mat_vec K u !! r =
      Some ((if decide (r < N)%nat
             then element_stiffness g (L g / INR N) r * (u !!! r - u !!! S r)
             else 0)
            + (if decide (1 <= r)%nat
               then element_stiffness g (L g / INR N) (pred r)
                    * (u !!! r - u !!! pred r)
               else 0)).
Proof.
  intros HN Hrun Hu.
  destruct (assemble_spec g N HN) as (K' & Hrun' & HK & Hrows & Hent).
  rewrite Hrun in Hrun'. injection Hrun' as <-.
  split; [rewrite mat_vec_length; assumption|].
  intros r Hr.
  rewrite (mat_vec_lookup K u (S N) (accumulated_entry g N));
    try assumption; try lia.
  - rewrite (accumulated_row g N r (fun c => u !!! c)) by assumption. reflexivity.
  - intros r' c' Hr' Hc'. apply Hent; lia.
Qed.

Lemma sum_f_drop_last (f : nat -> R) (n : nat) :
  f n = 0 -> sum_f f (S n) = sum_f f n.
Proof. intros H. simpl. lra. Qed.

(** X5: [u @ K @ u] for the assembled matrix is the sum over the elements of
    [k_i * (u[i+1] - u[i])^2]; for a valid model it is never negative. *)
Theorem strain_energy_form (g : globals) (N : nat) (K : matrix) (u : vector) :
  (1 <= N)%nat ->
  assemble_global_stiffness_matrix g N = Ok K ->
  length u = S N ->
  quad_form K u =
    sum_f (fun i => element_stiffness g (L g / INR N) i
                    * (u !!! S i - u !!! i) * (u !!! S i - u !!! i)) N /\
  (valid_model g -> 0 <= quad_form K u).
Proof.
  intros HN Hrun Hu.
  assert (Hform : quad_form K u =
    sum_f (fun i => element_stiffness g (L g / INR N) i
                    * (u !!! S i - u !!! i) * (u !!! S i - u !!! i)) N);
    [|split; [exact Hform|]].
  2:{ intros Hg. rewrite Hform.
      pose proof (sum_f_ge (fun i => element_stiffness g (L g / INR N) i
                    * (u !!! S i - u !!! i) * (u !!! S i - u !!! i)) 0 N) as Hge.
      rewrite Rmult_0_r in Hge. apply Hge. intros i _.
      pose proof (element_stiffness_pos g (L g / INR N) i Hg
                    (mesh_dx_pos g N Hg HN)) as Hk.
      rewrite Rmult_assoc. apply Rmult_le_pos; [lra|].
      apply (Rle_0_sqr (u !!! S i - u !!! i)). }
  destruct (assembled_mat_vec g N K u HN Hrun Hu) as [Hlen Hrow].
  unfold quad_form. rewrite dot_as_sum by congruence. rewrite Hu.
  rewrite (sum_f_ext _ (fun r =>
     (if decide (r < N)%nat
      then u !!! r * (element_stiffness g (L g / INR N) r * (u !!! r - u !!! S r))
      else 0)
     + (if decide (1 <= r)%nat
        then u !!! r * (element_stiffness g (L g / INR N) (pred r)
                        * (u !!! r - u !!! pred r))
        else 0))).
  2:{ intros r Hr.
      rewrite (list_lookup_total_correct (mat_vec K u) r _ (Hrow r ltac:(lia))).
      repeat case_decide; lra. }
  rewrite sum_f_plus.
  rewrite sum_f_drop_last by (rewrite decide_False by lia; reflexivity).
  rewrite (sum_f_shift (fun r => if decide (1 <= r)%nat then _ else 0)).
  rewrite decide_False by lia.
  rewrite Rplus_0_l, <- sum_f_plus.
  apply sum_f_ext. intros i Hi.
  rewrite decide_True by lia. rewrite decide_True by lia. simpl pred. ring.
Qed.

(** X6: for a valid model the assembled matrix (before the boundary
    condition) sends exactly the constant fields to zero: [K @ v = 0] if
    and only if all entries of [v] are equal. *)
Theorem stiffness_kernel_rigid (g : globals) (N : nat) (K : matrix) (v : vector) :
  valid_model g -> (1 <= N)%nat ->
  assemble_global_stiffness_matrix g N = Ok K ->
  length v = S N ->
  mat_vec K v = np_zeros (S N) <->
  (forall i, (i <= N)%nat -> v !!! i = v !!! 0%nat).
Proof.
  intros Hg HN Hrun Hv.
  destruct (assembled_mat_vec g N K v HN Hrun Hv) as [Hlen Hrow].
  assert (Hk : forall i, 0 < element_stiffness g (L g / INR N) i).
  { intros i. apply element_stiffness_pos; [assumption|].
    apply mesh_dx_pos; assumption. }
  split.
  - intros Hz.
    assert (Hrow0 : forall r, (r <= N)%nat ->
      (if decide (r < N)%nat
       then element_stiffness g (L g / INR N) r * (v !!! r - v !!! S r) else 0)
      + (if decide (1 <= r)%nat
         then element_stiffness g (L g / INR N) (pred r)
              * (v !!! r - v !!! pred r)
         else 0) = 0).
    { intros r Hr. specialize (Hrow r Hr).
      rewrite Hz, zeros_lookup in Hrow by lia. congruence. }
    assert (Hstep : forall i, (i < N)%nat -> v !!! S i = v !!! i).
    { induction i as [|i IH]; intros Hi.
      - specialize (Hrow0 0%nat ltac:(lia)). specialize (Hk 0%nat).
        revert Hrow0. repeat case_decide; try (exfalso; lia). intros Hrow0. nra.
      - specialize (IH ltac:(lia)).
        specialize (Hrow0 (S i) ltac:(lia)). specialize (Hk (S i)).
        revert Hrow0. repeat case_decide; try (exfalso; lia).
        simpl pred. rewrite IH. intros Hrow0. nra. }
    induction i as [|i IH]; intros Hi; [reflexivity|].
    rewrite Hstep by lia. apply IH. lia.
  - intros Hconst. apply list_eq. intros r.
    destruct (decide (r <= N)%nat) as [Hr|Hr].
    + rewrite Hrow, zeros_lookup by lia. f_equal.
      repeat case_decide; rewrite ?(Hconst (S r)), ?(Hconst (pred r)),
        ?(Hconst r) by lia; lra.
    + rewrite !lookup_ge_None_2; [reflexivity| |].
      * unfold np_zeros. rewrite length_replicate. lia.
      * lia.
Qed.

(** ** Edge cases of the mesh size and the constants *)

(** X7: with [N = 0] the assembler raises [ZeroDivisionError] (from
    [dx = L / N]) and so does [fem_displacement_modified]; nothing else
    can come out, whatever the constants. *)
Theorem zero_elements_raise (g : globals) :
  assemble_global_stiffness_matrix g 0 = Raise ZeroDivisionError /\
  forall r, fem_displacement_modified g 0 r <-> r = Raise ZeroDivisionError.
Proof.
  assert (Hsys : fem_system g 0 = Raise ZeroDivisionError).
  { unfold fem_system. simpl INR. rewrite py_div_zero. reflexivity. }
  split.
  - unfold assemble_global_stiffness_matrix. simpl INR.
    rewrite py_div_zero. reflexivity.
  - intros r. unfold fem_displacement_modified, rbind, rlift. rewrite Hsys.
    split.
    + intros [(a & Heq & _)|(e & Heq & ->)]; [discriminate|].
      injection Heq as ->. reflexivity.
    + intros ->. right. exists ZeroDivisionError. split; reflexivity.
Qed.

Lemma unit_vector_lookup (N i : nat) :
  (i <= N)%nat ->
  <[N := 1]> (np_zeros (S N)) !!! i = if decide (i = N) then 1 else 0.
Proof.
  intros Hi. apply list_lookup_total_correct. unfold np_zeros.
  case_decide as Hd.
  - subst. apply list_lookup_insert_eq. rewrite length_replicate. lia.
  - rewrite list_lookup_insert_ne by lia. apply lookup_replicate_2. lia.
Qed.

Lemma element_stiffness_zero (g : globals) (dx : R) (i : nat) :
  E g = 0 \/ A0 g = 0 -> element_stiffness g dx i = 0.
Proof.
  intros [H|H]; unfold element_stiffness, area_modified; rewrite H;
    unfold Rdiv; ring.
Qed.

(** X12: the constants are not validated: with [E = 0] or [A0 = 0] and
    [N >= 1] the boundary-conditioned system is singular and the one
    outcome of [fem_displacement_modified] is [LinAlgError]. *)
Theorem no_stiffness_is_singular (g : globals) (N : nat) :
  E g = 0 \/ A0 g = 0 -> (1 <= N)%nat ->
  forall r, fem_displacement_modified g N r <-> r = Raise LinAlgError.
Proof.
  intros Hzero HN r.
  destruct (fem_system_spec g N HN) as (K & f & Hrun & Hsys).
  pose proof (system_square g N K f Hsys) as [Hsq Hlenf].
  pose proof Hsys as (HK & _).
  assert (Hsing : ~ nonsingular K).
  { intros Hns. specialize (Hns (<[N := 1]> (np_zeros (S N)))).
    rewrite HK in Hns.
    assert (Hlen : length (<[N := 1]> (np_zeros (S N))) = S N).
    { rewrite length_insert. unfold np_zeros. apply length_replicate. }
    assert (Hz : <[N := 1]> (np_zeros (S N)) = np_zeros (S N)).
    { apply Hns; [assumption|]. apply list_eq. intros i.
      destruct (decide (i <= N)%nat) as [Hi|Hi].
      - rewrite (system_mat_vec g N K f _ Hsys Hlen i Hi), zeros_lookup by lia.
        f_equal. unfold constrained_row.
        rewrite !element_stiffness_zero by assumption.
        rewrite (unit_vector_lookup N 0) by lia.
        repeat case_decide; try (exfalso; lia); lra.
      - rewrite !lookup_ge_None_2; [reflexivity| |].
        + unfold np_zeros. rewrite length_replicate. lia.
        + rewrite mat_vec_length. lia. }
    pose proof (unit_vector_lookup N N ltac:(lia)) as HN1.
    rewrite Hz, decide_True in HN1 by reflexivity.
    rewrite (list_lookup_total_correct (np_zeros (S N)) N 0
               (zeros_lookup (S N) N ltac:(lia))) in HN1.
    lra. }
  unfold fem_displacement_modified, rbind, rlift. rewrite Hrun. split.
  - intros [((K' & f') & Heq & Hsolve)|(e & Heq & _)]; [|discriminate].
    injection Heq as -> ->.
    exact (solve_singular_raises K f r Hsing Hsolve).
  - intros ->. left. exists (K, f). split; [reflexivity|].
    apply solve_singular; assumption.
Qed.

(** ** The computed field *)

Lemma compliance_unfold (g : globals) (dx Fv : R) (j : nat) :
  0 < E g -> 0 < A0 g -> dx <> 0 ->
  Fv / element_stiffness g dx j
  = Fv * dx / (E g * area_modified g ((INR j + 1 / 2) * dx)).
Proof.
  intros HE HA Hdx. unfold element_stiffness, area_modified.
  pose proof (exp_pos (alpha_modified g * ((INR j + 1 / 2) * dx))).
  field. repeat split; lra.
Qed.

(** X9: for a valid model and [N >= 1] the outcomes of
    [fem_displacement_modified] are exactly the fields of length [N+1]
    with [u[i] = F/1e20 + sum over j < i of F*dx / (E * area(x_mid_j))]. *)
Theorem fem_displacement_explicit (g : globals) (N : nat) (r : result vector) :
  valid_model g -> (1 <= N)%nat ->
  fem_displacement_modified g N r <->
  exists u, r = Ok u /\ length u = S N /\
    forall i, (i <= N)%nat ->
      u !! i = Some (F g / 1e20
                     + sum_f (fun j => F g * (L g / INR N)
                                       / (E g * area_modified g
                                                  ((INR j + 1 / 2) * (L g / INR N))))
                             i).
Proof.
  intros Hg HN.
  pose proof (mesh_dx_pos g N Hg HN) as Hdx.
  assert (Hnode : forall i,
    nodal_displacement g (L g / INR N) (F g) i
    = F g / 1e20
      + sum_f (fun j => F g * (L g / INR N)
                        / (E g * area_modified g
                                   ((INR j + 1 / 2) * (L g / INR N)))) i).
  { intros i. unfold nodal_displacement. f_equal.
    apply sum_f_ext. intros j _. destruct Hg as (_ & HE & HA).
    apply compliance_unfold; lra. }
  rewrite fem_displacement_closed_form by assumption. split.
  - intros ->. eexists. split; [reflexivity|].
    split; [apply displacement_field_length|].
    intros i Hi. rewrite displacement_field_lookup by assumption.
    rewrite Hnode. reflexivity.
  - intros (u & -> & Hlen & Hent). f_equal.
    apply closed_form_unique; [assumption|].
    intros i Hi. rewrite Hnode.
    apply list_lookup_total_correct, Hent. assumption.
Qed.

(** X10: a field returned by [fem_displacement_modified] solves the
    boundary-conditioned system it was computed from; the penalty spring
    at node 0 carries the whole load, [1e20 * u[0] = F], and so does every
    element, [E * area(x_mid_i) / dx * (u[i+1] - u[i]) = F]. *)
Theorem fem_displacement_equilibrium (g : globals) (N : nat) (u : vector) :
  valid_model g -> (1 <= N)%nat ->
  fem_displacement_modified g N (Ok u) ->
  exists K f,
    fem_system g N = Ok (K, f) /\
    mat_vec K u = f /\
    1e20 * u !!! 0%nat = F g /\
    forall i, (i < N)%nat ->
      E g * area_modified g ((INR i + 1 / 2) * (L g / INR N)) / (L g / INR N)
      * (u !!! S i - u !!! i) = F g.
Proof.
  intros Hg HN Hu.
  destruct (fem_system_spec g N HN) as (K & f & Hrun & Hsys).
  apply fem_displacement_closed_form in Hu; [|assumption..].
  injection Hu as ->.
  assert (Hsol : mat_vec K (displacement_field g N (F g)) = f).
  { apply (system_solution g N K f); try assumption; try reflexivity.
    apply displacement_field_length. }
  exists K, f. split; [assumption|]. split; [assumption|].
  pose proof Hsys as (_ & _ & Hf & _ & Hfent).
  apply (system_solves_iff g N K f _ f (F g)); try assumption.
  apply displacement_field_length.
Qed.

(** X11: without taper ([alpha = 0]) the computed displacement at node [i]
    is the exact bar solution [F * x_i / (E * A0)] at [x_i = i * dx], plus
    the penalty offset [F/1e20]. *)
Theorem untapered_displacement_exact (g : globals) (N : nat) (u : vector) :
  valid_model g -> alpha_modified g = 0 -> (1 <= N)%nat ->
  fem_displacement_modified g N (Ok u) ->
  forall i, (i <= N)%nat ->
    u !! i = Some (F g / 1e20 + F g * (INR i * (L g / INR N)) / (E g * A0 g)).
Proof.
  intros Hg Ha HN Hu i Hi.
  pose proof (mesh_dx_pos g N Hg HN) as Hdx.
  apply fem_displacement_closed_form in Hu; [|assumption..].
  injection Hu as ->.
  rewrite displacement_field_lookup by assumption. f_equal.
  unfold nodal_displacement. f_equal.
  destruct Hg as (_ & HE & HA).
  rewrite (sum_f_ext _ (fun _ => F g * (L g / INR N) / (E g * A0 g))).
  2:{ intros j _. rewrite compliance_unfold by lra.
      unfold area_modified. rewrite Ha, Rmult_0_l, exp_0, Rmult_1_r.
      reflexivity. }
  assert (HNr : INR N <> 0) by (apply not_0_INR; lia).
  clear Hi. induction i as [|i IH]; [simpl; unfold Rdiv; ring|].
  cbn [sum_f]. rewrite IH, S_INR. field. repeat split; lra.
Qed.

(** ** Stress *)

(** X15: [stress] raises [ZeroDivisionError] when [dx = 0]; otherwise it
    returns [len(u) - 1] values, whatever [N] is passed, and entry [i] is
    [E * (u[i+1] - u[i]) / dx^2]. *)
Theorem stress_behaviour (g : globals) (u : vector) (N : nat) (dx : R) :
  (dx = 0 -> stress g u N dx = Raise ZeroDivisionError) /\
  (dx <> 0 ->
   exists s, stress g u N dx = Ok s /\
     length s = pred (length u) /\
     forall i a b, u !! i = Some a -> u !! S i = Some b ->
       s !! i = Some (E g * (b - a) / (dx * dx))).
Proof.
  split.
  - intros ->. unfold stress. rewrite py_div_zero. reflexivity.
  - intros Hdx. unfold stress. rewrite py_div_ok by assumption. simpl.
    eexists. split; [reflexivity|]. split.
    + rewrite !length_fmap. apply np_diff_length.
    + intros i a b Ha Hb.
      rewrite !list_lookup_fmap, (np_diff_lookup u i a b Ha Hb). simpl.
      f_equal. field. assumption.
Qed.

Lemma sigma_fem_outcome (g : globals) (N : nat) (r : result vector) :
  valid_model g -> (1 <= N)%nat ->
  sigma_fem_modified g N r <->
  r = stress g (displacement_field g N (F g)) N (L g / INR N).
Proof.
  intros Hg HN. unfold sigma_fem_modified, rbind, rlift.
  assert (Hdiv : py_div (L g) (INR N) = Ok (L g / INR N))
    by (apply py_div_ok, not_0_INR; lia).
  split.
  - intros [(u & Hu & Hr)|(e & He & _)].
    + apply fem_displacement_closed_form in Hu; [|assumption..].
      injection Hu as ->. rewrite Hdiv in Hr. exact Hr.
    + apply fem_displacement_closed_form in He; [|assumption..]. discriminate.
  - intros ->. left. exists (displacement_field g N (F g)). split.
    + apply fem_displacement_closed_form; [assumption..|reflexivity].
    + rewrite Hdiv. reflexivity.
Qed.

Lemma fem_stress_entries (g : globals) (N : nat) :
  valid_model g -> (1 <= N)%nat ->
  exists s,
    stress g (displacement_field g N (F g)) N (L g / INR N) = Ok s /\
    length s = N /\
    forall i, (i < N)%nat ->
      s !! i = Some (F g / (area_modified g ((INR i + 1 / 2) * (L g / INR N))
                            * (L g / INR N))).
Proof.
  intros Hg HN.
  pose proof (mesh_dx_pos g N Hg HN) as Hdx.
  destruct (stress_spec g (displacement_field g N (F g)) N (L g / INR N))
    as (s & Hs & Hlen & Hent); [lra|apply displacement_field_length|].
  exists s. split; [assumption|]. split; [assumption|].
  intros i Hi.
  rewrite (Hent i _ _ (displacement_field_lookup g N (F g) i ltac:(lia))
             (displacement_field_lookup g N (F g) (S i) ltac:(lia))).
  f_equal. rewrite nodal_displacement_step.
  destruct Hg as (HL & HE & HA).
  assert (HNr : INR N <> 0) by (apply not_0_INR; lia).
  replace (nodal_displacement g (L g / INR N) (F g) i
           + F g / element_stiffness g (L g / INR N) i
           - nodal_displacement g (L g / INR N) (F g) i)
    with (F g / element_stiffness g (L g / INR N) i) by lra.
  rewrite compliance_unfold by lra.
  unfold area_modified.
  pose proof (exp_pos (alpha_modified g * ((INR i + 1 / 2) * (L g / INR N)))).
  field. repeat split; lra.
Qed.

(** X16: for a valid model and [N >= 1] the stress pass of the main program
    returns [N] values and entry [i] is [F / (area(x_mid_i) * dx)]. *)
Theorem fem_stress_closed_form (g : globals) (N : nat) :
  valid_model g -> (1 <= N)%nat ->
  (exists s, sigma_fem_modified g N (Ok s)) /\
  forall r, sigma_fem_modified g N r ->
    exists s, r = Ok s /\ length s = N /\
      forall i, (i < N)%nat ->
        s !! i = Some (F g / (area_modified g ((INR i + 1 / 2) * (L g / INR N))
                              * (L g / INR N))).
Proof.
  intros Hg HN.
  destruct (fem_stress_entries g N Hg HN) as (s & Hs & Hlen & Hent).
  split.
  - exists s. apply sigma_fem_outcome; [assumption..|]. symmetry. exact Hs.
  - intros r Hr. apply sigma_fem_outcome in Hr; [|assumption..].
    exists s. split; [congruence|]. split; assumption.
Qed.

(** X17: for a valid model with non-negative taper and load, the stresses
    the main program computes do not increase from one element to the
    next. *)
Theorem fem_stress_nonincreasing (g : globals) (N : nat) (s : vector) :
  valid_model g -> 0 <= alpha_modified g -> 0 <= F g -> (1 <= N)%nat ->
  sigma_fem_modified g N (Ok s) ->
  forall i a b, s !! i = Some a -> s !! S i = Some b -> b <= a.
Proof.
  intros Hg Ha HF HN Hs i a b Hsa Hsb.
  pose proof (mesh_dx_pos g N Hg HN) as Hdx.
  destruct (fem_stress_entries g N Hg HN) as (s' & Hs' & Hlen & Hent).
  apply sigma_fem_outcome in Hs; [|assumption..].
  rewrite Hs' in Hs. injection Hs as ->.
  assert (Hi : (S i < N)%nat) by (rewrite <- Hlen; eapply lookup_lt_Some; eassumption).
  rewrite Hent in Hsa, Hsb by lia.
  injection Hsa as <-. injection Hsb as <-.
  destruct Hg as (HL & HE & HA).
  set (x1 := (INR i + 1 / 2) * (L g / INR N)).
  set (x2 := (INR (S i) + 1 / 2) * (L g / INR N)).
  assert (Hx : x1 <= x2) by (unfold x1, x2; rewrite S_INR; nra).
  assert (H1 : 0 < area_modified g x1)
    by (unfold area_modified; apply Rmult_lt_0_compat; [assumption|apply exp_pos]).
  assert (H12 : area_modified g x1 <= area_modified g x2).
  { unfold area_modified. apply Rmult_le_compat_l; [lra|].
    apply exp_le_mono. nra. }
  unfold Rdiv. apply Rmult_le_compat_l; [assumption|].
  apply Rinv_le_contravar.
  - apply Rmult_lt_0_compat; assumption.
  - apply Rmult_le_compat_r; [lra|assumption].
Qed.
Lemma cosh_ge_1 (x : R) : 1 <= cosh x.
Proof.
  unfold cosh. rewrite exp_Ropp.
  pose proof (exp_pos x) as Ht. set (t := exp x) in *. clearbody t.
  assert (H0 : 0 < / t) by (apply Rinv_0_lt_compat; assumption).
  replace (t + / t) with (2 + (t - 1) * (t - 1) * / t) by (field; lra).
  assert (0 <= (t - 1) * (t - 1)) by (apply (Rle_0_sqr (t - 1))).
  assert (0 <= (t - 1) * (t - 1) * / t) by (apply Rmult_le_pos; lra).
  lra.
Qed.

Lemma sinh_sign (x : R) : 0 <= x * sinh x.
Proof.
  destruct (Rtotal_order x 0) as [Hlt|[->|Hgt]].
  - pose proof (sinh_lt x 0 Hlt) as H. rewrite sinh_0 in H. nra.
  - lra.
  - pose proof (sinh_lt 0 x Hgt) as H. rewrite sinh_0 in H. nra.
Qed.

Lemma sinh_ge_id (h : R) : 0 <= h -> h <= sinh h.
Proof.
  intros Hh.
  pose (f := (sinh - id)%F).
  assert (pr : derivable f).
  { unfold f. apply derivable_minus; [apply derivable_sinh|apply derivable_id]. }
  assert (Hinc : increasing f).
  { apply (nonneg_derivative_1 f pr). intros x.
    assert (Hd : derive_pt f x (pr x) = cosh x - 1).
    { apply derive_pt_eq_0. unfold f.
      apply derivable_pt_lim_minus;
        [apply derivable_pt_lim_sinh|apply derivable_pt_lim_id]. }
    rewrite Hd. pose proof (cosh_ge_1 x). lra. }
  specialize (Hinc 0 h Hh). unfold f, minus_fct, id in Hinc.
  rewrite sinh_0 in Hinc. lra.
Qed.

Lemma sinh_le_id_cosh (h : R) : 0 <= h -> sinh h <= h * cosh h.
Proof.
  intros Hh.
  pose (f := (id * cosh - sinh)%F).
  assert (pr : derivable f).
  { unfold f. apply derivable_minus; [|apply derivable_sinh].
    apply derivable_mult; [apply derivable_id|apply derivable_cosh]. }
  assert (Hinc : increasing f).
  { apply (nonneg_derivative_1 f pr). intros x.
    assert (Hd : derive_pt f x (pr x) = (1 * cosh x + id x * sinh x) - cosh x).
    { apply derive_pt_eq_0. unfold f.
      apply derivable_pt_lim_minus; [|apply derivable_pt_lim_sinh].
      apply derivable_pt_lim_mult;
        [apply derivable_pt_lim_id|apply derivable_pt_lim_cosh]. }
    rewrite Hd. unfold id. pose proof (sinh_sign x). lra. }
  specialize (Hinc 0 h Hh). unfold f, minus_fct, mult_fct, id in Hinc.
  rewrite sinh_0 in Hinc. lra.
Qed.

(** [sinh x <= (3/2) x] on [0, 1/2]. *)
Lemma sinh_small (x : R) : 0 <= x <= 1 / 2 -> sinh x <= 3 / 2 * x.
Proof.
  intros [H0 H1]. unfold sinh.
  pose proof (exp_ineq1_le (- x)) as Hlow.
  pose proof (exp_pos (- x)) as Hp.
  assert (He : exp x = / exp (- x)).
  { rewrite exp_Ropp, Rinv_inv. reflexivity. }
  rewrite He. set (t := exp (- x)) in *. clearbody t.
  assert (Hinv : / t <= / (1 - x)).
  { apply Rinv_le_contravar; lra. }
  assert (Hb : / (1 - x) <= 1 + 2 * x).
  { apply (Rmult_le_reg_r (1 - x)); [lra|].
    replace (/ (1 - x) * (1 - x)) with 1 by (field; lra). nra. }
  nra.
Qed.

(** ** The computed field against the analytical solution *)

Lemma midpoint_geometric_sum (a dx : R) (i : nat) :
  sum_f (fun j => exp (- (a * ((INR j + 1 / 2) * dx)))) i
  * (exp (a * dx / 2) - exp (- (a * dx / 2)))
  = 1 - exp (- (a * (INR i * dx))).
Proof.
  induction i as [|i IH].
  - simpl. replace (- (a * (0 * dx))) with 0 by lra. rewrite exp_0. lra.
  - cbn [sum_f]. rewrite Rmult_plus_distr_r, IH.
    rewrite Rmult_minus_distr_l, <- !exp_plus.
    replace (- (a * ((INR i + 1 / 2) * dx)) + a * dx / 2)
      with (- (a * (INR i * dx))) by lra.
    replace (- (a * ((INR i + 1 / 2) * dx)) + - (a * dx / 2))
      with (- (a * (INR (S i) * dx))) by (rewrite S_INR; lra).
    lra.
Qed.

Lemma exp_diff_neq0 (h : R) : h <> 0 -> exp h - exp (- h) <> 0.
Proof.
  intros Hh Heq.
  destruct (Rtotal_order h 0) as [Hlt|[->|Hgt]]; [| lra |].
  - pose proof (exp_increasing h (- h) ltac:(lra)). lra.
  - pose proof (exp_increasing (- h) h ltac:(lra)). lra.
Qed.

Lemma nodal_displacement_analytical (g : globals) (dx : R) (i : nat) :
  0 < E g -> 0 < A0 g -> alpha_modified g <> 0 -> dx <> 0 ->
  nodal_displacement g dx (F g) i
  = F g / 1e20
    + midpoint_factor g dx
      * (F g / (E g * A0 g * alpha_modified g)
         * (1 - exp (- alpha_modified g * (INR i * dx)))).
Proof.
  intros HE HA Ha Hdx. unfold nodal_displacement. f_equal.
  set (a := alpha_modified g) in *.
  assert (HD : exp (a * dx / 2) - exp (- (a * dx / 2)) <> 0).
  { apply exp_diff_neq0. intros H0.
    assert (a * dx = 0) by lra.
    destruct (Rmult_integral _ _ H); contradiction. }
  rewrite (sum_f_ext _ (fun j =>
     exp (- (a * ((INR j + 1 / 2) * dx))) * (F g * dx / (E g * A0 g)))).
  2:{ intros j _. rewrite compliance_unfold by assumption.
      unfold area_modified. fold a. rewrite exp_Ropp.
      pose proof (exp_pos (a * ((INR j + 1 / 2) * dx))).
      field. repeat split; lra. }
  rewrite sum_f_scale.
  pose proof (midpoint_geometric_sum a dx i) as Hgeo.
  unfold midpoint_factor. fold a.
  replace (- a * (INR i * dx)) with (- (a * (INR i * dx))) by lra.
  rewrite <- Hgeo. field. repeat split; lra.
Qed.

(** X13: for a valid model with a taper rate other than zero, the computed
    displacement at node [i] is the penalty offset [F/1e20] plus the
    analytical displacement at [x_i = i * dx] scaled by [midpoint_factor],
    the same factor at every node. *)
Theorem fem_matches_analytical (g : globals) (N : nat) (u : vector) (i : nat) :
  valid_model g -> alpha_modified g <> 0 -> (1 <= N)%nat ->
  fem_displacement_modified g N (Ok u) -> (i <= N)%nat ->
  exists ua,
    analytical_displacement_modified g (INR i * (L g / INR N)) = Ok ua /\
    u !! i = Some (F g / 1e20 + midpoint_factor g (L g / INR N) * ua).
Proof.
  intros Hg Ha HN Hu Hi.
  pose proof (mesh_dx_pos g N Hg HN) as Hdx.
  apply fem_displacement_closed_form in Hu; [|assumption..].
  injection Hu as ->. destruct Hg as (HL & HE & HA).
  eexists. split.
  - unfold analytical_displacement_modified.
    rewrite py_div_ok; [reflexivity|].
    assert (0 < E g * A0 g) by (apply Rmult_lt_0_compat; assumption). nra.
  - rewrite displacement_field_lookup by assumption. f_equal.
    apply nodal_displacement_analytical; lra.
Qed.

Lemma cosh_half_angle (h : R) : cosh h - 1 = 2 * (sinh (h / 2) * sinh (h / 2)).
Proof.
  unfold cosh, sinh.
  replace h with (h / 2 + h / 2) at 1 2 by lra.
  rewrite Ropp_plus_distr, !exp_plus.
  pose proof (exp_pos (h / 2)) as Hp.
  assert (Hinv : exp (h / 2) * exp (- (h / 2)) = 1).
  { rewrite exp_Ropp. field. lra. }
  set (s := exp (h / 2)) in *. set (t := exp (- (h / 2))) in *.
  replace ((s - t) / 2 * ((s - t) / 2)) with ((s * s + t * t - 2 * (s * t)) / 4)
    by (field; lra).
  rewrite Hinv. lra.
Qed.

Theorem midpoint_factor_bounds (g : globals) (dx : R) :
  0 < alpha_modified g -> 0 < dx -> alpha_modified g * dx <= 2 ->
  1 - 9 / 32 * (alpha_modified g * dx) * (alpha_modified g * dx)
  <= midpoint_factor g dx <= 1.
Proof.
  intros Ha Hdx Hsmall. unfold midpoint_factor.
  set (h := alpha_modified g * dx / 2).
  assert (Hh : 0 < h) by (unfold h; nra).
  assert (Hh1 : h <= 1) by (unfold h; lra).
  replace (alpha_modified g * dx) with (2 * h) by (unfold h; lra).
  replace (exp h - exp (- h)) with (2 * sinh h) by (unfold sinh; lra).
  clearbody h.
  pose proof (sinh_ge_id h ltac:(lra)) as Hlow.
  pose proof (sinh_le_id_cosh h ltac:(lra)) as Hup.
  pose proof (cosh_ge_1 h) as Hc1.
  pose proof (cosh_half_angle h) as Hhalf.
  pose proof (sinh_small (h / 2) ltac:(lra)) as Hs.
  pose proof (sinh_ge_id (h / 2) ltac:(lra)) as Hs0.
  assert (Hcosh : cosh h - 1 <= 9 / 8 * (h * h)).
  { rewrite Hhalf.
    assert (sinh (h / 2) * sinh (h / 2) <= (3 / 2 * (h / 2)) * (3 / 2 * (h / 2))).
    { apply Rmult_le_compat; lra. }
    lra. }
  assert (Hsh : 0 < sinh h) by lra.
  replace (2 * h / (2 * sinh h)) with (h / sinh h) by (field; lra).
  split.
  - apply (Rmult_le_reg_r (sinh h)); [assumption|].
    replace (h / sinh h * sinh h) with h by (field; lra).
    assert (H1 : (1 - 9 / 32 * (2 * h) * (2 * h)) * sinh h
                 <= (2 - cosh h) * sinh h).
    { apply Rmult_le_compat_r; lra. }
    assert (H2 : (2 - cosh h) * sinh h <= (2 - cosh h) * (h * cosh h) \/
                 2 - cosh h < 0).
    { destruct (Rle_or_lt 0 (2 - cosh h)); [left|right; assumption].
      apply Rmult_le_compat_l; assumption. }
    assert (H3 : (2 - cosh h) * cosh h <= 1).
    { pose proof (Rle_0_sqr (cosh h - 1)) as Hsq. unfold Rsqr in Hsq. lra. }
    destruct H2 as [H2|H2].
    + assert ((2 - cosh h) * (h * cosh h) <= h).
      { replace ((2 - cosh h) * (h * cosh h)) with (h * ((2 - cosh h) * cosh h))
          by ring.
        assert (h * ((2 - cosh h) * cosh h) <= h * 1)
          by (apply Rmult_le_compat_l; lra).
        lra. }
      lra.
    + assert ((2 - cosh h) * sinh h <= 0).
      { replace 0 with ((2 - cosh h) * 0) by ring.
        apply Rmult_le_compat_neg_l; lra. }
      lra.
  - apply (Rmult_le_reg_r (sinh h)); [assumption|].
    replace (h / sinh h * sinh h) with h by (field; lra). lra.
Qed.

(** ** The error pass *)

Lemma np_linspace_lookup (stop : R) (N i : nat) :
  (i <= N)%nat ->
  np_linspace 0 stop (N + 1) !! i = Some (INR i * (stop / INR N)).
Proof.
  intros Hi. unfold np_linspace. rewrite list_lookup_fmap.
  rewrite lookup_seq_lt by lia. simpl.
  replace (N + 1 - 1)%nat with N by lia. f_equal. unfold Rdiv. ring.
Qed.

Lemma np_linspace_length (start stop : R) (num : nat) :
  length (np_linspace start stop num) = num.
Proof. unfold np_linspace. rewrite length_fmap, length_seq. reflexivity. Qed.

Lemma list_comprehension_ok {A B : Type} (f : A -> result B) (h : A -> B)
    (l : list A) :
  (forall x, f x = Ok (h x)) -> list_comprehension f l = Ok (h <$> l).
Proof.
  intros Hf. induction l as [|x l IH]; [reflexivity|].
  cbn [list_comprehension]. rewrite Hf, IH. reflexivity.
Qed.

Lemma list_comprehension_raises {A B : Type} (f : A -> result B) (e : exn)
    (l : list A) :
  (forall x, f x = Raise e) -> l <> [] -> list_comprehension f l = Raise e.
Proof.
  intros Hf Hl. destruct l as [|x l]; [contradiction|].
  cbn [list_comprehension]. rewrite Hf. reflexivity.
Qed.

Lemma error_pass_outcome (g : globals) (N : nat) (r : result vector) :
  valid_model g -> alpha_modified g <> 0 -> (1 <= N)%nat ->
  error_pass g N r <->
  r = Ok (np_abs_diff (displacement_field g N (F g))
            ((fun x => F g / (E g * A0 g * alpha_modified g)
                       * (1 - exp (- alpha_modified g * x)))
               <$> np_linspace 0 (L g) (N + 1))).
Proof.
  intros Hg Ha HN. unfold error_pass, rbind, rlift.
  assert (Hcomp : list_comprehension (analytical_displacement_modified g)
                    (np_linspace 0 (L g) (N + 1))
                  = Ok ((fun x => F g / (E g * A0 g * alpha_modified g)
                                  * (1 - exp (- alpha_modified g * x)))
                          <$> np_linspace 0 (L g) (N + 1))).
  { apply list_comprehension_ok. intros x.
    unfold analytical_displacement_modified.
    rewrite py_div_ok; [reflexivity|].
    destruct Hg as (_ & HE & HA).
    assert (0 < E g * A0 g) by (apply Rmult_lt_0_compat; assumption). nra. }
  split.
  - intros [(u & Hu & Hr)|(e & He & _)].
    + apply fem_displacement_closed_form in Hu; [|assumption..].
      injection Hu as ->. rewrite Hr. simpl. rewrite Hcomp. reflexivity.
    + apply fem_displacement_closed_form in He; [|assumption..]. discriminate.
  - intros ->. left. exists (displacement_field g N (F g)). split.
    + apply fem_displacement_closed_form; [assumption..|reflexivity].
    + simpl. rewrite Hcomp. reflexivity.
Qed.

(** X18: for a valid model with [0 < alpha] and [alpha * L <= 2 * N] the
    error pass of the main program returns [N+1] values; the one at the
    fixed node is [|F|/1e20], and the one at node [i] is at most
    [|F|/1e20 + (9/32) * (alpha * dx)^2 * |analytical(x_i)|]. *)
Theorem error_pass_bound (g : globals) (N : nat) :
  valid_model g -> 0 < alpha_modified g -> (1 <= N)%nat ->
  alpha_modified g * L g <= 2 * INR N ->
  (exists err, error_pass g N (Ok err)) /\
  forall r, error_pass g N r ->
    exists err, r = Ok err /\ length err = S N /\
      err !! 0%nat = Some (Rabs (F g) / 1e20) /\
      forall i, (i <= N)%nat ->
        exists e ua,
          err !! i = Some e /\
          analytical_displacement_modified g (INR i * (L g / INR N)) = Ok ua /\
          e <= Rabs (F g) / 1e20
               + 9 / 32 * (alpha_modified g * (L g / INR N))
                        * (alpha_modified g * (L g / INR N)) * Rabs ua.
Proof.
  intros Hg Ha HN Hsmall.
  pose proof (mesh_dx_pos g N Hg HN) as Hdx.
  assert (HNr : 0 < INR N) by (apply lt_0_INR; lia).
  assert (Hadx : alpha_modified g * (L g / INR N) <= 2).
  { apply (Rmult_le_reg_r (INR N)); [assumption|].
    replace (alpha_modified g * (L g / INR N) * INR N)
      with (alpha_modified g * L g) by (field; lra).
    lra. }
  pose proof (midpoint_factor_bounds g (L g / INR N) Ha Hdx Hadx) as [Hclo Hchi].
  set (c := midpoint_factor g (L g / INR N)) in *.
  set (q := 9 / 32 * (alpha_modified g * (L g / INR N))
            * (alpha_modified g * (L g / INR N))) in *.
  assert (Hentry : forall i, (i <= N)%nat ->
    np_abs_diff (displacement_field g N (F g))
      ((fun x => F g / (E g * A0 g * alpha_modified g)
                 * (1 - exp (- alpha_modified g * x)))
         <$> np_linspace 0 (L g) (N + 1)) !! i
    = Some (Rabs (F g / 1e20
                  + c * (F g / (E g * A0 g * alpha_modified g)
                         * (1 - exp (- alpha_modified g * (INR i * (L g / INR N)))))
                  - F g / (E g * A0 g * alpha_modified g)
                    * (1 - exp (- alpha_modified g * (INR i * (L g / INR N))))))).
  { intros i Hi. unfold np_abs_diff.
    rewrite lookup_zip_with, displacement_field_lookup by assumption. simpl.
    rewrite list_lookup_fmap, np_linspace_lookup by assumption. simpl.
    destruct Hg as (_ & HE & HA).
    rewrite nodal_displacement_analytical by lra. reflexivity. }
  assert (Hlen : length (np_abs_diff (displacement_field g N (F g))
      ((fun x => F g / (E g * A0 g * alpha_modified g)
                 * (1 - exp (- alpha_modified g * x)))
         <$> np_linspace 0 (L g) (N + 1))) = S N).
  { unfold np_abs_diff.
    rewrite length_zip_with, displacement_field_length, length_fmap,
      np_linspace_length. lia. }
  split.
  - eexists. apply error_pass_outcome; [assumption|lra|assumption|reflexivity].
  - intros r Hr. apply error_pass_outcome in Hr; [|assumption|lra|assumption].
    subst r. eexists. split; [reflexivity|]. split; [assumption|]. split.
    + rewrite Hentry by lia. f_equal. simpl INR.
      rewrite Rmult_0_l, Rmult_0_r, exp_0.
      replace (F g / 1e20 + c * (F g / (E g * A0 g * alpha_modified g) * (1 - 1))
               - F g / (E g * A0 g * alpha_modified g) * (1 - 1))
        with (F g * / 1e20) by lra.
      rewrite Rabs_mult, (Rabs_pos_eq (/ 1e20)) by lra. reflexivity.
    + intros i Hi. do 2 eexists. split; [apply Hentry; assumption|]. split.
      * unfold analytical_displacement_modified.
        rewrite py_div_ok; [reflexivity|].
        destruct Hg as (_ & HE & HA).
        assert (0 < E g * A0 g) by (apply Rmult_lt_0_compat; assumption). nra.
      * set (ua := F g / (E g * A0 g * alpha_modified g)
                   * (1 - exp (- alpha_modified g * (INR i * (L g / INR N))))).
        replace (F g / 1e20 + c * ua - ua)
          with (F g * / 1e20 + - ((1 - c) * ua)) by lra.
        eapply Rle_trans; [apply Rabs_triang|].
        rewrite Rabs_Ropp, !Rabs_mult.
        rewrite (Rabs_pos_eq (/ 1e20)), (Rabs_pos_eq (1 - c)) by lra.
        pose proof (Rabs_pos ua) as Hua.
        assert ((1 - c) * Rabs ua <= q * Rabs ua)
          by (apply Rmult_le_compat_r; lra).
        unfold Rdiv. lra.
Qed.

(** X19: without taper ([alpha = 0]) the displacement is computed, but the
    error pass raises [ZeroDivisionError] when it evaluates the analytical
    solution at the nodes. *)
Theorem error_pass_untapered_raises (g : globals) (N : nat) (r : result vector) :
  valid_model g -> alpha_modified g = 0 -> (1 <= N)%nat ->
  (exists u, fem_displacement_modified g N (Ok u)) /\
  (error_pass g N r <-> r = Raise ZeroDivisionError).
Proof.
  intros Hg Ha HN.
  assert (Hfem : fem_displacement_modified g N (Ok (displacement_field g N (F g))))
    by (apply fem_displacement_closed_form; [assumption..|reflexivity]).
  split; [eexists; exact Hfem|].
  assert (Hcomp : list_comprehension (analytical_displacement_modified g)
                    (np_linspace 0 (L g) (N + 1)) = Raise ZeroDivisionError).
  { apply list_comprehension_raises.
    - intros x. unfold analytical_displacement_modified.
      rewrite Ha, Rmult_0_r, py_div_zero. reflexivity.
    - intros Hnil. apply (f_equal length) in Hnil.
      rewrite np_linspace_length in Hnil. simpl in Hnil. lia. }
  unfold error_pass, rbind, rlift. split.
  - intros [(u & Hu & Hr)|(e & He & _)].
    + rewrite Hr. simpl. rewrite Hcomp. reflexivity.
    + apply fem_displacement_closed_form in He; [|assumption..]. discriminate.
  - intros ->. left. exists (displacement_field g N (F g)).
    split; [exact Hfem|]. simpl. rewrite Hcomp. reflexivity.
Qed.

(** X14: for a valid model with [0 < alpha], [0 <= F] and
    [alpha * L <= 2 * N], the computed displacement at node [i], less the
    penalty offset, lies between [1 - (9/32) * (alpha * dx)^2] times the
    analytical displacement and the analytical displacement itself. *)
Theorem fem_within_analytical_bounds (g : globals) (N : nat) (u : vector)
    (i : nat) :
  valid_model g -> 0 < alpha_modified g -> 0 <= F g -> (1 <= N)%nat ->
  alpha_modified g * L g <= 2 * INR N ->
  fem_displacement_modified g N (Ok u) -> (i <= N)%nat ->
  exists ui ua,
    u !! i = Some ui /\
    analytical_displacement_modified g (INR i * (L g / INR N)) = Ok ua /\
    0 <= ua /\
    F g / 1e20
    + (1 - 9 / 32 * (alpha_modified g * (L g / INR N))
                  * (alpha_modified g * (L g / INR N))) * ua
    <= ui <= F g / 1e20 + ua.
Proof.
  intros Hg Ha HF HN Hsmall Hu Hi.
  pose proof (mesh_dx_pos g N Hg HN) as Hdx.
  assert (HNr : 0 < INR N) by (apply lt_0_INR; lia).
  assert (Hadx : alpha_modified g * (L g / INR N) <= 2).
  { apply (Rmult_le_reg_r (INR N)); [assumption|].
    replace (alpha_modified g * (L g / INR N) * INR N)
      with (alpha_modified g * L g) by (field; lra).
    lra. }
  pose proof (midpoint_factor_bounds g (L g / INR N) Ha Hdx Hadx) as [Hclo Hchi].
  apply fem_displacement_closed_form in Hu; [|assumption..].
  injection Hu as ->. destruct Hg as (HL & HE & HA).
  do 2 eexists. split; [apply displacement_field_lookup; assumption|]. split.
  - unfold analytical_displacement_modified.
    rewrite py_div_ok; [reflexivity|].
    assert (0 < E g * A0 g) by (apply Rmult_lt_0_compat; assumption). nra.
  - rewrite nodal_displacement_analytical by lra.
    set (c := midpoint_factor g (L g / INR N)) in *.
    set (ua := F g / (E g * A0 g * alpha_modified g)
               * (1 - exp (- alpha_modified g * (INR i * (L g / INR N))))).
    assert (Hua : 0 <= ua).
    { unfold ua. apply Rmult_le_pos.
      - apply Rmult_le_pos; [assumption|]. left. apply Rinv_0_lt_compat.
        apply Rmult_lt_0_compat; [apply Rmult_lt_0_compat|]; assumption.
      - assert (exp (- alpha_modified g * (INR i * (L g / INR N))) <= exp 0).
        { apply exp_le_mono. pose proof (pos_INR i) as Hi0.
          assert (0 <= INR i * (L g / INR N)) by (apply Rmult_le_pos; lra).
          assert (0 <= alpha_modified g * (INR i * (L g / INR N)))
            by (apply Rmult_le_pos; lra).
          lra. }
        rewrite exp_0 in H. lra. }
    split; [assumption|]. split.
    + assert ((1 - 9 / 32 * (alpha_modified g * (L g / INR N))
                   * (alpha_modified g * (L g / INR N))) * ua <= c * ua)
        by (apply Rmult_le_compat_r; assumption).
      lra.
    + assert (c * ua <= 1 * ua) by (apply Rmult_le_compat_r; assumption). lra.
Qed.

(** X3: the nodal forces of an element are equal and opposite,
    [k * (u0 - u1)] and [k * (u1 - u0)] with [k = E * A_mid / dx]; a
    rigid translation produces none, and [u @ k_local @ u] is
    [k * (u1 - u0)^2]. *)
Theorem local_stiffness_forces (g : globals) (A_mid dx u0 u1 : R) :
  mat_vec (local_stiffness_matrix g A_mid dx) [u0; u1]
    = [E g * A_mid / dx * (u0 - u1); E g * A_mid / dx * (u1 - u0)] /\
  mat_vec (local_stiffness_matrix g A_mid dx) [u0; u0] = [0; 0] /\
  quad_form (local_stiffness_matrix g A_mid dx) [u0; u1]
    = E g * A_mid / dx * ((u1 - u0) * (u1 - u0)).
Proof.
  unfold quad_form, mat_vec, dot, local_stiffness_matrix, mat_scale. simpl.
  split; [|split].
  - list_R_eq.
  - list_R_eq.
  - ring.
Qed.

(** X8: [apply_boundary_conditions] raises [IndexError] exactly when the
    matrix has no entry [K[0, 0]]: it is empty or its first row is. *)
Theorem apply_boundary_conditions_index_error (K : matrix) (f : vector) :
  apply_boundary_conditions K f = Raise IndexError <->
  K = [] \/ exists K', K = [] :: K'.
Proof.
  unfold apply_boundary_conditions, mat_lookup.
  destruct K as [|[|x row] K']; simpl.
  - split; [intros _; left; reflexivity|reflexivity].
  - split; [intros _; right; eexists; reflexivity|reflexivity].
  - split; [discriminate|]. intros [H|[K'' H]]; discriminate.
Qed.

(** ** Witnesses *)

Lemma area_modified_positive_monotone_witness :
  area_modified weird_py 0 = A0 weird_py /\
  0 < area_modified weird_py 0 /\
  area_modified weird_py 0 <= area_modified weird_py 1.
Proof.
  apply (area_modified_positive_monotone weird_py 0 1); simpl; lra.
Defined.

Lemma analytical_at_origin_and_monotone_witness :
  exists ux uy u0,
    analytical_displacement_modified weird_py 0 = Ok ux /\
    analytical_displacement_modified weird_py 1 = Ok uy /\
    analytical_displacement_modified weird_py 0 = Ok u0 /\
    u0 = 0 /\ ux <= uy.
Proof.
  apply (analytical_at_origin_and_monotone weird_py 0 1); simpl; lra.
Defined.

Lemma stiffness_tridiagonal_witness :
  exists K,
    assemble_global_stiffness_matrix weird_py 4 = Ok K /\
    mat_lookup K 0 2 = Some 0.
Proof.
  destruct (stiffness_tridiagonal weird_py 4 ltac:(lia)) as (K & HK & Hfar & _).
  exists K. split; [assumption|]. apply Hfar; lia.
Defined.

Lemma strain_energy_form_witness :
  exists K, assemble_global_stiffness_matrix weird_py 1 = Ok K /\
    0 <= quad_form K [0; 1].
Proof.
  destruct (assemble_spec weird_py 1 ltac:(lia)) as (K & HK & _).
  exists K. split; [assumption|].
  apply (proj2 (strain_energy_form weird_py 1 K [0; 1] ltac:(lia) HK eq_refl)).
  apply weird_py_valid.
Defined.

Lemma stiffness_kernel_rigid_witness :
  exists K, assemble_global_stiffness_matrix weird_py 1 = Ok K /\
    mat_vec K [5; 5] = np_zeros 2.
Proof.
  destruct (assemble_spec weird_py 1 ltac:(lia)) as (K & HK & _).
  exists K. split; [assumption|].
  apply (proj2 (stiffness_kernel_rigid weird_py 1 K [5; 5] weird_py_valid
                  ltac:(lia) HK eq_refl)).
  intros [|[|i]] Hi; try reflexivity. lia.
Defined.

Lemma no_stiffness_is_singular_witness :
  fem_displacement_modified limp_rod 1 (Raise LinAlgError).
Proof.
  apply (no_stiffness_is_singular limp_rod 1); [left; reflexivity|lia|reflexivity].
Defined.

Lemma fem_displacement_explicit_witness :
  exists u, fem_displacement_modified weird_py 1 (Ok u) /\ length u = 2%nat.
Proof.
  destruct (proj1 (fem_displacement_explicit weird_py 1 _ weird_py_valid
                     ltac:(lia)) fem_weird_py_1) as (u & Hu & Hlen & _).
  exists u. split; [|assumption]. rewrite <- Hu. apply fem_weird_py_1.
Defined.

Lemma fem_displacement_equilibrium_witness :
  1e20 * displacement_field weird_py 1 1000 !!! 0%nat = 1000.
Proof.
  destruct (fem_displacement_equilibrium weird_py 1 _ weird_py_valid
              ltac:(lia) fem_weird_py_1) as (K & f & _ & _ & H0 & _).
  exact H0.
Defined.

Lemma fem_untapered_1 :
  fem_displacement_modified untapered 1 (Ok (displacement_field untapered 1 1000)).
Proof.
  apply fem_displacement_closed_form; [apply untapered_valid|lia|reflexivity].
Qed.

Lemma untapered_displacement_exact_witness :
  displacement_field untapered 1 1000 !! 1%nat
  = Some (F untapered / 1e20
          + F untapered * (INR 1 * (L untapered / INR 1))
            / (E untapered * A0 untapered)).
Proof.
  apply (untapered_displacement_exact untapered 1 _ untapered_valid eq_refl
           ltac:(lia) fem_untapered_1 1%nat ltac:(lia)).
Defined.

Lemma fem_matches_analytical_witness :
  exists ua,
    analytical_displacement_modified weird_py (INR 1 * (L weird_py / INR 1)) = Ok ua /\
    displacement_field weird_py 1 1000 !! 1%nat
    = Some (F weird_py / 1e20 + midpoint_factor weird_py (L weird_py / INR 1) * ua).
Proof.
  apply (fem_matches_analytical weird_py 1 _ 1 weird_py_valid);
    [simpl; lra|lia|apply fem_weird_py_1|lia].
Defined.

Lemma fem_within_analytical_bounds_witness :
  exists ui ua,
    displacement_field weird_py 1 1000 !! 1%nat = Some ui /\
    analytical_displacement_modified weird_py (INR 1 * (L weird_py / INR 1)) = Ok ua /\
    0 <= ua /\
    F weird_py / 1e20
    + (1 - 9 / 32 * (alpha_modified weird_py * (L weird_py / INR 1))
                  * (alpha_modified weird_py * (L weird_py / INR 1))) * ua
    <= ui <= F weird_py / 1e20 + ua.
Proof.
  apply (fem_within_analytical_bounds weird_py 1 _ 1 weird_py_valid);
    [simpl; lra|simpl; lra|lia|simpl; lra|apply fem_weird_py_1|lia].
Defined.

Lemma stress_behaviour_witness :
  stress weird_py [0; 1; 3] 2 0 = Raise ZeroDivisionError /\
  exists s, stress weird_py [0; 1; 3] 2 (1 / 2) = Ok s /\ length s = 2%nat.
Proof.
  destruct (stress_behaviour weird_py [0; 1; 3] 2 0) as [H0 _].
  destruct (stress_behaviour weird_py [0; 1; 3] 2 (1 / 2)) as [_ H1].
  split; [apply H0; reflexivity|].
  destruct H1 as (s & Hs & Hlen & _); [lra|].
  exists s. split; assumption.
Defined.

Lemma fem_stress_closed_form_witness :
  exists s, sigma_fem_modified weird_py 4 (Ok s).
Proof.
  exact (proj1 (fem_stress_closed_form weird_py 4 weird_py_valid ltac:(lia))).
Defined.

Lemma fem_stress_nonincreasing_witness :
  exists s, sigma_fem_modified weird_py 4 (Ok s) /\
    forall i a b, s !! i = Some a -> s !! S i = Some b -> b <= a.
Proof.
  destruct (fem_stress_entries weird_py 4 weird_py_valid ltac:(lia))
    as (s & Hs & _).
  assert (Hrun : sigma_fem_modified weird_py 4 (Ok s)).
  { apply sigma_fem_outcome; [apply weird_py_valid|lia|]. symmetry. exact Hs. }
  exists s. split; [exact Hrun|].
  apply (fem_stress_nonincreasing weird_py 4 s weird_py_valid);
    [simpl; lra|simpl; lra|lia|exact Hrun].
Defined.

Lemma error_pass_bound_witness :
  exists err, error_pass weird_py 4 (Ok err).
Proof.
  refine (proj1 (error_pass_bound weird_py 4 weird_py_valid _ _ _)).
  - simpl. lra.
  - lia.
  - simpl. lra.
Defined.

Lemma error_pass_untapered_raises_witness :
  error_pass untapered 4 (Raise ZeroDivisionError).
Proof.
  apply (proj2 (error_pass_untapered_raises untapered 4 _ untapered_valid
                  eq_refl ltac:(lia))).
  reflexivity.
Defined.

Lemma apply_boundary_conditions_index_error_witness :
  apply_boundary_conditions [] [0; 1000] = Raise IndexError.
Proof.
  apply (proj2 (apply_boundary_conditions_index_error [] [0; 1000])).
  left. reflexivity.
Defined.

Lemma zero_elements_raise_witness :
  fem_displacement_modified weird_py 0 (Raise ZeroDivisionError).
Proof.
  apply (proj2 (zero_elements_raise weird_py)). reflexivity.
Defined.
